(** * Expense tracker: the backend handlers and what the client makes of them

    A shallow embedding of [backend/server.js] (the in-memory expense store,
    the category registry and the summary aggregation), of the percentage
    derivation of [frontend/src/components/ExpenseSummary.js], and of the
    functions of the React client that decide what is sent to the server and
    what is shown of its answers ([utils/helpers.js], [ExpenseForm.js],
    [CategoryFilter.js], [ExpenseService.js], [App.js]), followed by the
    properties the specification states about them and by further properties
    of the code.

    Conventions of the embedding.
    - A JavaScript Number is an IEEE 754 binary64 value: [spec_float] with
      precision 53 and maximal exponent 1024, and the operations of
      [SpecFloat] (round to nearest, ties to even).
    - A JavaScript string is a [string] whose characters are the code units
      0..255, read as Latin-1; strings with code units above 255 are outside
      the model.
    - A request is well typed: [amount] is any JSON scalar (the handlers
      pass it through [parseFloat]), and the text fields are a string, [null]
      or absent. On such requests no operation of a handler throws, so the
      [catch] branches (status 500) are never taken and are left out.
    - A handler is a function from the request and the module-level arrays
      ([expenses], [categories]) to the response it sends and the arrays it
      leaves behind. The response is the value handed to [res.json], before
      serialisation. The identifier [uuidv4()] returns is an argument of the
      handler that calls it.
    - Between the client and the server a value goes through
      [JSON.stringify] and [JSON.parse]: a string and a finite Number arrive
      as they were sent ([-0] as [0]), [NaN] and the infinities arrive as
      [null], and a field that is [undefined] does not arrive.
    - A component of the client is the function from its state and its
      inputs to the state it sets; the state is the one the component is in
      once its effects have run. *)

From Stdlib Require Import ZArith Ascii.
From Stdlib Require Import Floats.SpecFloat.
From Stdlib Require OrderedTypeEx.
From stdpp Require Import base list strings sorting pretty.

Local Open Scope Z_scope.

(** ** Numbers *)

Module Number.

Definition prec : Z := 53.
Definition emax : Z := 1024.

Definition number : Type := spec_float.

#[global] Instance number_eq_dec : EqDecision number.
Proof. unfold number. solve_decision. Defined.

Definition nan : number := S754_nan.
Definition zero : number := S754_zero false.
Definition infinity : number := S754_infinity false.

Definition add : number -> number -> number := SFadd prec emax.
Definition mul : number -> number -> number := SFmul prec emax.
Definition div : number -> number -> number := SFdiv prec emax.
Definition opp : number -> number := SFopp.

(** [x > y] and [x === y] on Numbers. *)
Definition gt (x y : number) : bool := SFltb y x.
Definition strict_eq (x y : number) : bool := SFeqb x y.

Definition is_nan (x : number) : bool :=
  match x with S754_nan => true | _ => false end.


(** [isFinite]: neither NaN nor an infinity. *)
Definition is_finite (x : number) : bool :=
  match x with S754_zero _ | S754_finite _ _ _ => true | _ => false end.

(** ToBoolean on a Number: [+0], [-0] and [NaN] are falsy. *)
Definition truthy (x : number) : bool :=
  match x with S754_zero _ | S754_nan => false | _ => true end.

(** The Number nearest to the integer [z]. *)
Definition of_Z (z : Z) : number := binary_normalize prec emax z 0 false.

(** The Number nearest to [m * 10^k], for [0 <= m]. For a negative [k] the
    quotient is taken with 64 bits more than a mantissa holds, and a sticky
    bit records a non-zero remainder, so that the final rounding is the
    rounding of the exact quotient. *)
Definition of_decimal (m k : Z) : number :=
  match k with
  | Zneg p =>
      let d := 10 ^ Zpos p in
      let s := 64 + Z.log2 d in
      let (q, r) := Z.div_eucl (Z.shiftl m s) d in
      binary_normalize prec emax (2 * q + (if r =? 0 then 0 else 1)) (- s - 1) false
  | _ => binary_normalize prec emax (m * 10 ^ k) 0 false
  end.

End Number.

Export Number.

(** ** Strings *)

Module JSString.

Definition code (c : ascii) : Z := Z.of_N (N_of_ascii c).

(** WhiteSpace and LineTerminator code points below 256: TAB, LF, VT, FF,
    CR, SP and NBSP. *)
Definition is_whitespace (c : ascii) : bool :=
  let n := code c in
  ((9 <=? n) && (n <=? 13)) || (n =? 32) || (n =? 160).

Fixpoint trimStart (s : string) : string :=
  match s with
  | EmptyString => EmptyString
  | String c s' => if is_whitespace c then trimStart s' else s
  end.

Fixpoint trimEnd (s : string) : string :=
  match s with
  | EmptyString => EmptyString
  | String c s' =>
      match trimEnd s' with
      | EmptyString => if is_whitespace c then EmptyString else String c EmptyString
      | t => String c t
      end
  end.

(** [String.prototype.trim]. *)
Definition trim (s : string) : string := trimEnd (trimStart s).

(** The lower-case mapping of a Latin-1 code point: [A]..[Z] and the
    accented capitals U+00C0..U+00DE (U+00D7, the multiplication sign,
    apart) move up by 32. *)
Definition lower_char (c : ascii) : ascii :=
  let n := code c in
  if ((65 <=? n) && (n <=? 90))
     || ((192 <=? n) && (n <=? 222) && negb (n =? 215))
  then ascii_of_N (Z.to_N (n + 32))
  else c.

(** [String.prototype.toLowerCase]. *)
Fixpoint toLowerCase (s : string) : string :=
  match s with
  | EmptyString => EmptyString
  | String c s' => String (lower_char c) (toLowerCase s')
  end.

Definition is_digit (c : ascii) : bool :=
  let n := code c in (48 <=? n) && (n <=? 57).

Definition digit_value (c : ascii) : Z := code c - 48.

(** The longest prefix of decimal digits, read as a numeral continuing
    [acc]: the value, the number of digits read, and the rest. *)
Fixpoint read_digits (s : string) (acc : Z) (n : Z) : Z * Z * string :=
  match s with
  | String c s' =>
      if is_digit c then read_digits s' (10 * acc + digit_value c) (n + 1)
      else (acc, n, s)
  | EmptyString => (acc, n, s)
  end.

Fixpoint prefix (p s : string) : option string :=
  match p, s with
  | EmptyString, _ => Some s
  | String a p', String b s' => if Ascii.eqb a b then prefix p' s' else None
  | String _ _, EmptyString => None
  end.

End JSString.

Export JSString.

(** ** Values of a request *)

Module Value.

(** A scalar the JSON body parser can put under a key, [JUndefined]
    standing for a key that is absent. *)
Inductive jsval : Type :=
| JUndefined
| JNull
| JBool (b : bool)
| JNum (x : number)
| JStr (s : string).

(** A text field ([category], [date], [description], [name], the [category]
    query parameter): absent, [null] or a string, as the client's
    [ExpenseService] documents them. *)
Inductive text : Type :=
| TAbsent
| TNull
| TStr (s : string).

#[global] Instance jsval_eq_dec : EqDecision jsval.
Proof. solve_decision. Defined.

#[global] Instance text_eq_dec : EqDecision text.
Proof. solve_decision. Defined.

Definition nonempty (s : string) : bool :=
  match s with EmptyString => false | String _ _ => true end.

(** ToBoolean. *)
Definition truthy_val (v : jsval) : bool :=
  match v with
  | JUndefined | JNull => false
  | JBool b => b
  | JNum x => truthy x
  | JStr s => nonempty s
  end.

Definition truthy_text (t : text) : bool :=
  match t with
  | TAbsent | TNull => false
  | TStr s => nonempty s
  end.

(** The ExponentPart of a StrDecimalLiteral at the head of [s]: [e] or [E],
    an optional sign and at least one digit. Without one the exponent is 0
    and nothing is read. *)
Definition exponent_part (s : string) : Z :=
  match s with
  | String c r =>
      if (code c =? 101) || (code c =? 69) then
        let '(neg, r') :=
          match r with
          | String "-" r' => (true, r')
          | String "+" r' => (false, r')
          | _ => (false, r)
          end in
        let '(e, n, _) := read_digits r' 0 0 in
        if n =? 0 then 0 else if neg then - e else e
      else 0
  | EmptyString => 0
  end.

(** [parseFloat] on a string: leading white space is skipped, the longest
    prefix that is a StrDecimalLiteral is read and rounded to the nearest
    Number; [NaN] when no prefix is one. *)
Definition parseFloat_string (s : string) : number :=
  let t := trimStart s in
  let '(neg, t1) :=
    match t with
    | String "-" r => (true, r)
    | String "+" r => (false, r)
    | _ => (false, t)
    end in
  let signed (x : number) := if neg then opp x else x in
  match prefix "Infinity" t1 with
  | Some _ => signed infinity
  | None =>
      let '(m1, n1, r1) := read_digits t1 0 0 in
      let '(m, n2, r2) :=
        match r1 with
        | String "." r => read_digits r m1 0
        | _ => (m1, 0, r1)
        end in
      if (n1 =? 0) && (n2 =? 0) then nan
      else signed (of_decimal m (exponent_part r2 - n2))
  end.

(** [parseFloat] first converts its argument to a string. [undefined],
    [null] and the booleans print as words that start no numeral. A Number
    prints as [NaN], [Infinity], [-Infinity] or the shortest decimal that
    reads back to it, except that [-0] prints as [0]. *)
Definition parseFloat (v : jsval) : number :=
  match v with
  | JStr s => parseFloat_string s
  | JNum (S754_zero _) => zero
  | JNum x => x
  | JUndefined | JNull | JBool _ => nan
  end.

(** The result of [toFixed(1)]: a decimal numeral with one fractional
    digit, [tenths] tenths in magnitude with a minus sign in front when
    [neg]; or, for NaN, the infinities and magnitudes of 10^21 and more,
    the text [Number::toString] gives. *)
Inductive fixed_text : Type :=
| FixedDigits (neg : bool) (tenths : Z)
| FixedToString (x : number).

(** [Number.prototype.toFixed] with one fraction digit: the integer [n]
    with [n / 10] nearest to the magnitude of [x], the larger one of two. *)
Definition toFixed1 (x : number) : fixed_text :=
  match x with
  | S754_nan | S754_infinity _ => FixedToString x
  | S754_zero _ => FixedDigits false 0
  | S754_finite s m e =>
      match e with
      | Zneg p =>
          let d := 2 ^ Zpos p in
          if 10 ^ 21 * d <=? Zpos m then FixedToString x
          else FixedDigits s ((20 * Zpos m + d) / (2 * d))
      | _ =>
          if 10 ^ 21 <=? Zpos m * 2 ^ e then FixedToString x
          else FixedDigits s (10 * Zpos m * 2 ^ e)
      end
  end.

End Value.

Export Value.

(** ** Plain objects used as maps *)

Module JSObject.

(** What a property of the summary accumulator holds: a Number, or, once a
    key has met a member of [Object.prototype], a text: the string that
    member converts to, followed by the decimal renderings of the Numbers
    appended to it since. *)
Inductive propval : Type :=
| PNum (x : number)
| PText (member : string) (appended : list number).

(** The own properties of an object created by [{}], in the order
    [Object.entries] lists them. *)
Definition object : Type := list (string * propval).

(** An array index is the canonical numeral of an integer in
    [0, 2^32 - 2]: decimal digits only, no leading zero. *)
Definition array_index (k : string) : option Z :=
  let '(v, n, r) := read_digits k 0 0 in
  let leading_zero :=
    match k with String "0" (String _ _) => true | _ => false end in
  if (0 <? n) && negb (nonempty r) && negb leading_zero && (v <? 2 ^ 32 - 1)
  then Some v else None.

(** The property names every plain object inherits from
    [Object.prototype]. *)
Definition prototype_members : list string :=
  [ "constructor"; "__defineGetter__"; "__defineSetter__"; "hasOwnProperty";
    "__lookupGetter__"; "__lookupSetter__"; "isPrototypeOf";
    "propertyIsEnumerable"; "toString"; "valueOf"; "__proto__";
    "toLocaleString" ].

Definition inherited (k : string) : bool := bool_decide (k ∈ prototype_members).

Fixpoint get_own (o : object) (k : string) : option propval :=
  match o with
  | [] => None
  | (k', v) :: o' => if String.eqb k' k then Some v else get_own o' k
  end.

(** [o[k]]: the own property, else the inherited member (a function, or for
    [__proto__] the prototype object itself), else [undefined]. *)
Definition get (o : object) (k : string) : option propval :=
  match get_own o k with
  | Some v => Some v
  | None => if inherited k then Some (PText k []) else None
  end.

Fixpoint replace_own (o : object) (k : string) (v : propval) : object :=
  match o with
  | [] => []
  | (k', v') :: o' =>
      if String.eqb k' k then (k', v) :: o' else (k', v') :: replace_own o' k v
  end.

(** A new array-index key goes before the first key that is a larger index
    or no index at all. *)
Fixpoint insert_index (o : object) (i : Z) (k : string) (v : propval) : object :=
  match o with
  | [] => [(k, v)]
  | (k', v') :: o' =>
      match array_index k' with
      | Some j => if i <? j then (k, v) :: o else (k', v') :: insert_index o' i k v
      | None => (k, v) :: o
      end
  end.

(** [o[k] = v] with [v] a primitive. An own property is overwritten. The
    inherited [__proto__] is an accessor whose setter ignores primitives.
    Any other key becomes a new own property: array indices first, in
    ascending order, then the other keys in order of creation. *)
Definition set (o : object) (k : string) (v : propval) : object :=
  match get_own o k with
  | Some _ => replace_own o k v
  | None =>
      if String.eqb k "__proto__" then o
      else match array_index k with
           | Some i => insert_index o i k v
           | None => o ++ [(k, v)]
           end
  end.

End JSObject.

Export JSObject.

(** ** The backend: [server.js] *)

Module Expense.
(** A stored expense, as [POST /api/expenses] builds it. *)
Record expense : Type := mk {
  id : string;
  amount : number;
  category : string;
  date : string;
  description : text
}.
End Expense.

Module Body.
(** The fields the expense handlers read off [req.body]. *)
Record body : Type := mk {
  amount : jsval;
  category : text;
  date : text;
  description : text
}.
End Body.

Module Row.
(** An element of the summary array. *)
Record row : Type := mk {
  category : string;
  total : propval
}.
End Row.

Module Server.

Abbreviation expense := Expense.expense.
Abbreviation body := Body.body.
Abbreviation row := Row.row.

(** The two module-level arrays. *)
Record state : Type := mkState {
  expenses : list expense;
  categories : list string
}.

Definition initial : state :=
  {| expenses := [];
     categories := [ "Food"; "Transport"; "Entertainment"; "Utilities";
                     "Healthcare"; "Shopping" ] |}.

(** What a handler sends: [res.status(s).json({ success: true, ... })] with
    its payload, or [res.status(s).json({ success: false, error })]. A
    handler that sets no status sends 200. *)
Inductive response (A : Type) : Type :=
| Ok (status : Z) (payload : A)
| Err (status : Z) (error : string).
Arguments Ok {A} status payload.
Arguments Err {A} status error.

Definition status_of {A} (r : response A) : Z :=
  match r with Ok s _ => s | Err s _ => s end.

(** The string of a truthy text field. *)
Definition string_of (t : text) : string :=
  match t with TStr s => s | TAbsent | TNull => "" end.

(** [t || fallback] where the result is used as a string. *)
Definition or_else (t : text) (fallback : string) : string :=
  if truthy_text t then string_of t else fallback.

(** [GET /api/expenses]: payload [data], [count]. *)
Definition get_expenses (category : text) (st : state)
  : response (list expense * nat) :=
  let filteredExpenses :=
    if truthy_text category && negb (String.eqb (string_of category) "All")
    then filter (λ e, toLowerCase (Expense.category e)
                      = toLowerCase (string_of category)) (expenses st)
    else expenses st in
  Ok 200 (filteredExpenses, length filteredExpenses).

(** The callback of the first [reduce] of the summary:
    [acc[c] = (acc[c] || 0) + amount]. A text is truthy, and adding a
    Number to it appends the Number's rendering. *)
Definition summary_step (acc : object) (e : expense) : object :=
  let c := Expense.category e in
  let v :=
    match get acc c with
    | Some (PNum t) => PNum (add (if truthy t then t else zero) (Expense.amount e))
    | Some (PText m l) => PText m (l ++ [Expense.amount e])
    | None => PNum (add zero (Expense.amount e))
    end in
  set acc c v.

Definition summary_object (l : list expense) : object :=
  fold_left summary_step l [].

(** [Object.entries(summary).map(([category, total]) => ({category, total}))] *)
Definition summaryArray (l : list expense) : list row :=
  (λ '(category, total), Row.mk category total) <$> summary_object l.

Definition grandTotal (l : list expense) : number :=
  fold_left (λ sum e, add sum (Expense.amount e)) l zero.

(** [GET /api/expenses/summary]: payload [data], [grandTotal]. *)
Definition get_summary (st : state) : response (list row * number) :=
  Ok 200 (summaryArray (expenses st), grandTotal (expenses st)).

(** [POST /api/expenses]; [uuid] is what the call of [uuidv4()] returns.
    Payload [data], [message]. *)
Definition post_expense (uuid : string) (b : body) (st : state)
  : response (expense * string) * state :=
  if negb (truthy_val (Body.amount b))
     || negb (truthy_text (Body.category b))
     || negb (truthy_text (Body.date b))
  then (Err 400 "Amount, category, and date are required", st)
  else
    let newExpense :=
      {| Expense.id := uuid;
         Expense.amount := parseFloat (Body.amount b);
         Expense.category := string_of (Body.category b);
         Expense.date := string_of (Body.date b);
         Expense.description := TStr (or_else (Body.description b) "") |} in
    (Ok 201 (newExpense, "Expense added successfully"),
     {| expenses := expenses st ++ [newExpense]; categories := categories st |}).

(** [expenses.findIndex((e) => e.id === id)], with the element found. *)
Definition findIndex (id : string) (l : list expense) : option (nat * expense) :=
  list_find (λ e, Expense.id e = id) l.

(** The object literal of [PUT /api/expenses/:id]: the spread of the old
    record with the four fields written over it. *)
Definition updated (old : expense) (b : body) : expense :=
  {| Expense.id := Expense.id old;
     Expense.amount :=
       match Body.amount b with
       | JUndefined => Expense.amount old
       | a => parseFloat a
       end;
     Expense.category := or_else (Body.category b) (Expense.category old);
     Expense.date := or_else (Body.date b) (Expense.date old);
     Expense.description :=
       match Body.description b with
       | TAbsent => Expense.description old
       | d => d
       end |}.

(** [PUT /api/expenses/:id]: payload [data], [message]. *)
Definition put_expense (id : string) (b : body) (st : state)
  : response (expense * string) * state :=
  match findIndex id (expenses st) with
  | None => (Err 404 "Expense not found", st)
  | Some (index, old) =>
      let new := updated old b in
      (Ok 200 (new, "Expense updated successfully"),
       {| expenses := <[index := new]> (expenses st);
          categories := categories st |})
  end.

(** [DELETE /api/expenses/:id]: [splice(index, 1)[0]] is the element at
    [index]. Payload [data], [message]. *)
Definition delete_expense (id : string) (st : state)
  : response (expense * string) * state :=
  match findIndex id (expenses st) with
  | None => (Err 404 "Expense not found", st)
  | Some (index, deleted) =>
      (Ok 200 (deleted, "Expense deleted successfully"),
       {| expenses := delete index (expenses st);
          categories := categories st |})
  end.

(** [GET /api/categories]. *)
Definition get_categories (st : state) : response (list string) :=
  Ok 200 (categories st).

(** [POST /api/categories]: payload [data], [message]. *)
Definition post_category (name : text) (st : state)
  : response (string * string) * state :=
  if negb (truthy_text name) || negb (nonempty (trim (string_of name)))
  then (Err 400 "Category name is required", st)
  else
    let categoryName := trim (string_of name) in
    if existsb (λ c, String.eqb (toLowerCase c) (toLowerCase categoryName))
               (categories st)
    then (Err 400 "Category already exists", st)
    else
      (Ok 201 (categoryName, "Category created successfully"),
       {| expenses := expenses st;
          categories := categories st ++ [categoryName] |}).

End Server.

(** ** The percentage breakdown: [ExpenseSummary.js] *)

Module ExpenseSummary.

(** An element of [displayData]. *)
Record item : Type := mkItem {
  category : string;
  total : number
}.

(** What [percentage] is bound to: the Number 0, or the string
    [toFixed(1)] returns. *)
Inductive percentage : Type :=
| PctZero
| PctText (t : fixed_text).

Definition hundred : number := of_Z 100.

(** [grandTotal > 0 ? ((item.total / grandTotal) * 100).toFixed(1) : 0],
    evaluated: the value, and the divisions the evaluation performs, each
    as dividend and divisor. Only the branch taken is evaluated. *)
Definition percentage_eval (total grandTotal : number)
  : percentage * list (number * number) :=
  if gt grandTotal zero
  then (PctText (toFixed1 (mul (div total grandTotal) hundred)),
        [(total, grandTotal)])
  else (PctZero, []).

Definition percentage_of (total grandTotal : number) : percentage :=
  (percentage_eval total grandTotal).1.


(** The rows of the percentage breakdown. *)
Definition breakdown (data : list item) (grandTotal : number)
  : list (string * percentage) :=
  (λ it, (category it, percentage_of (total it) grandTotal)) <$> data.

End ExpenseSummary.

(** ** The vocabulary of the specification *)

Module Spec.

Import Server.

(** The failure signals, as the handlers send them. *)
Definition ValidationError_expense {A} : response A :=
  Err 400 "Amount, category, and date are required".
Definition ValidationError_category {A} : response A :=
  Err 400 "Category name is required".
Definition ConflictError {A} : response A :=
  Err 400 "Category already exists".
Definition NotFoundError {A} : response A :=
  Err 404 "Expense not found".

(** The class of a status: 2 for 2xx, 4 for 4xx, 5 for 5xx. *)
Definition status_class {A} (r : response A) : Z := status_of r / 100.

(** A field is missing: not present, [null], or empty. *)
Definition missing_val (v : jsval) : Prop :=
  v = JUndefined ∨ v = JNull ∨ v = JStr "".
Definition missing_text (t : text) : Prop :=
  t = TAbsent ∨ t = TNull ∨ t = TStr "".

(** What [!amount] rejects besides: [false], and the Numbers [0], [-0]
    and [NaN]. *)
Definition falsy_amount (v : jsval) : Prop :=
  missing_val v ∨ v = JBool false ∨ ∃ x, v = JNum x ∧ truthy x = false.

(** The bodies [POST /api/expenses] turns down. *)
Definition rejected (b : body) : Prop :=
  falsy_amount (Body.amount b)
  ∨ missing_text (Body.category b)
  ∨ missing_text (Body.date b).

(** The characters of a string. *)
Fixpoint chars (s : string) : list ascii :=
  match s with
  | EmptyString => []
  | String c s' => c :: chars s'
  end.

Definition ids (l : list expense) : list string := Expense.id <$> l.

(** Some stored expense has the given id. *)
Definition known (id : string) (st : state) : Prop := id ∈ ids (expenses st).

(** Case-insensitive match of a category with a filter. *)
Definition matches (f : string) (e : expense) : Prop :=
  toLowerCase (Expense.category e) = toLowerCase f.

#[global] Instance matches_dec f e : Decision (matches f e).
Proof. unfold matches. apply _. Defined.

(** A finite Number above zero. *)
Definition positive_finite (x : number) : bool := is_finite x && gt x zero.

(** The requests that change the arrays, and the arrays they leave. *)
Inductive request : Type :=
| PostExpense (uuid : string) (b : body)
| PutExpense (id : string) (b : body)
| DeleteExpense (id : string)
| PostCategory (name : text).

Definition handle (r : request) (st : state) : state :=
  match r with
  | PostExpense uuid b => snd (post_expense uuid b st)
  | PutExpense id b => snd (put_expense id b st)
  | DeleteExpense id => snd (delete_expense id st)
  | PostCategory name => snd (post_category name st)
  end.

(** [uuidv4()] returns an identifier that no stored expense carries. *)
Definition admissible (r : request) (st : state) : Prop :=
  match r with
  | PostExpense uuid _ => uuid ∉ ids (expenses st)
  | _ => True
  end.

(** The states the server can be in: those a sequence of requests leads
    to from the initial arrays. *)
Inductive reachable : state → Prop :=
| reachable_initial : reachable initial
| reachable_step st r :
    reachable st → admissible r st → reachable (handle r st).

(** The categories in the order they are first met. *)
Fixpoint first_seen (l : list string) : list string :=
  match l with
  | [] => []
  | c :: l' => c :: filter (λ c', c' ≠ c) (first_seen l')
  end.

(** The left-to-right floating-point sum. *)
Definition float_sum (l : list number) : number := fold_left add l zero.

(** The amounts of the expenses that carry exactly the category [c], in
    stored order. *)
Definition amounts_of (c : string) (l : list expense) : list number :=
  Expense.amount <$> filter (λ e, Expense.category e = c) l.

(** The sum as the summary accumulates it: a running total that is [NaN]
    or a zero is replaced by [+0] before the next amount is added. *)
Definition running_total (l : list number) : number :=
  fold_left (λ t a, add (if truthy t then t else zero) a) l zero.

(** A finite Number other than [-0]. *)
Definition plain (x : number) : bool :=
  match x with
  | S754_finite _ _ _ | S754_zero false => true
  | _ => false
  end.

Definition is_index (k : string) : bool :=
  match array_index k with Some _ => true | None => false end.

Definition index_value (k : string) : Z :=
  match array_index k with Some i => i | None => 0 end.

Definition index_le (a b : string) : Prop := index_value a ≤ index_value b.

(** Insertion of an array-index key into an ascending list of them. *)
Fixpoint insert_sorted (k : string) (l : list string) : list string :=
  match l with
  | [] => [k]
  | k' :: l' =>
      if index_value k <? index_value k' then k :: l
      else k' :: insert_sorted k l'
  end.

Definition sort_indices (l : list string) : list string :=
  fold_left (λ acc k, insert_sorted k acc) l [].

(** The order in which an object lists keys created in the order [l]:
    the array indices in ascending numeric order, then the other keys in
    order of creation. *)
Definition property_order (l : list string) : list string :=
  sort_indices (filter (λ k, is_index k = true) l)
  ++ filter (λ k, is_index k = false) l.

(** The sum of the totals of a summary, when they are all Numbers. *)
Fixpoint sum_of_totals_from (acc : number) (rows : list row) : option number :=
  match rows with
  | [] => Some acc
  | r :: rows' =>
      match Row.total r with
      | PNum t => sum_of_totals_from (add acc t) rows'
      | PText _ _ => None
      end
  end.

Definition sum_of_totals (rows : list row) : option number :=
  sum_of_totals_from zero rows.


(** The keys of the summary accumulator, as [set] moves them: the keys of
    [insert_index o i k v] and of [set o k v] from the keys of [o]. *)
Fixpoint insert_key (ks : list string) (i : Z) (k : string) : list string :=
  match ks with
  | [] => [k]
  | k' :: ks' =>
      match array_index k' with
      | Some j => if i <? j then k :: ks else k' :: insert_key ks' i k
      | None => k :: ks
      end
  end.

Definition key_step (ks : list string) (k : string) : list string :=
  if decide (k ∈ ks) then ks
  else if String.eqb k "__proto__" then ks
  else match array_index k with
       | Some i => insert_key ks i k
       | None => ks ++ [k]
       end.

(** The value [summary_step] writes, from what it reads. *)
Definition step_value (read : option propval) (a : number) : propval :=
  match read with
  | Some (PNum t) => PNum (add (if truthy t then t else zero) a)
  | Some (PText m l) => PText m (l ++ [a])
  | None => PNum (add zero a)
  end.

(** The canonical mantissa and exponent of a whole number [p] below 2^53:
    [p = mantissa53 p * 2 ^ exponent53 p], the mantissa having 53 digits. *)
Definition mantissa53 (p : positive) : positive :=
  Z.to_pos (Zpos p * 2 ^ (53 - Zpos (digits2_pos p))).

Definition exponent53 (p : positive) : Z := Zpos (digits2_pos p) - 53.

(** The whole number a finite Number holds, rounded down in magnitude; 0 for
    the others. *)
Definition to_Z (x : number) : Z :=
  match x with
  | S754_finite s m e =>
      let v := match e with
               | Zneg p => Zpos m / 2 ^ Zpos p
               | _ => Zpos m * 2 ^ e
               end in
      if s then - v else v
  | _ => 0
  end.

(** A Number that is a whole number: the nearest Number to its own whole
    part. *)
Definition whole (x : number) : Prop := x = of_Z (to_Z x).

#[global] Instance whole_dec x : Decision (whole x).
Proof. unfold whole. apply _. Defined.

(** The exact sum of the whole parts, and of their magnitudes. *)
Fixpoint whole_sum (xs : list number) : Z :=
  match xs with
  | [] => 0
  | x :: xs' => to_Z x + whole_sum xs'
  end.

Fixpoint magnitude (xs : list number) : Z :=
  match xs with
  | [] => 0
  | x :: xs' => Z.abs (to_Z x) + magnitude xs'
  end.

(** The Number a decimal numeral denotes. *)
Definition numeral (s : string) : number := parseFloat_string s.

End Spec.

(** ** Sample requests *)

Module Sample.

Import Server Spec.

Definition create (amount category date : string) : body :=
  Body.mk (JNum (numeral amount)) (TStr category) (TStr date) TAbsent.

(** The server after a sequence of creations, the [n]-th of which draws the
    identifier [id-n]. *)
Fixpoint created_from (n : nat) (bs : list body) (st : state) : state :=
  match bs with
  | [] => st
  | b :: bs' =>
      created_from (S n) bs'
        (handle (PostExpense ("id-" +:+ pretty n) b) st)
  end.

Definition created (bs : list body) : state := created_from 1 bs initial.

(** Two categories, the amounts of one of them apart. *)
Definition groceries : state :=
  created [ create "0.3" "Food" "2024-01-01";
            create "0.1" "Transport" "2024-01-02";
            create "0.2" "Food" "2024-01-03" ].

(** A category that is a numeral, met after one that is not. *)
Definition by_year : state :=
  created [ create "10" "Food" "2024-01-01";
            create "5" "2024" "2024-01-02" ].

(** Categories that differ in case only, and a numeral. *)
Definition mixed : state :=
  created [ create "50" "Food" "2024-01-01";
            create "30" "food" "2024-01-02";
            create "5" "2024" "2024-01-03";
            create "30" "Food" "2024-01-04" ].

(** One category. *)
Definition food_only : state :=
  created [ create "50" "Food" "2024-01-01";
            create "30" "Food" "2024-01-02" ].

End Sample.

(** ** The client

    The functions of the React client that decide what is sent to the
    server and what is shown of its answers. Rendering, styling and the
    formatting of currency and dates are left out. *)

(** *** What crosses the wire *)

Module Wire.

(** A Number as [JSON.parse] reads what [JSON.stringify] wrote: a finite
    Number comes back as itself, [-0] as [0]; [NaN] and the infinities are
    written as [null], here [None]. *)
Definition number_json (x : number) : option number :=
  match x with
  | S754_zero _ => Some zero
  | S754_finite _ _ _ => Some x
  | S754_nan | S754_infinity _ => None
  end.

Definition jsval_of (x : option number) : jsval :=
  match x with Some y => JNum y | None => JNull end.

(** The total of a summary row as the client receives it. A text total is
    the source text of a function, which starts with [function], followed by
    the renderings of the Numbers appended to it. *)
Inductive received : Type :=
| RNumber (x : number)
| RNull
| RText (member : string) (appended : list number).

Definition total_json (v : propval) : received :=
  match v with
  | PNum t => match number_json t with Some y => RNumber y | None => RNull end
  | PText m l => RText m l
  end.

End Wire.

Export Wire.

Module SummaryItem.
(** An element of the [summary] prop of [ExpenseSummary]. *)
Record summary_item : Type := mk {
  category : string;
  total : received
}.
End SummaryItem.

(** *** [utils/helpers.js] *)

Module Helpers.

(** [isValidAmount]. *)
Definition isValidAmount (value : jsval) : bool :=
  let amount := parseFloat value in
  negb (is_nan amount) && gt amount zero.

(** The object literal of [getCategoryColor]. *)
Definition colorMap : list (string * string) :=
  [ ("Food", "#FF6B6B"); ("Transport", "#4ECDC4"); ("Entertainment", "#45B7D1");
    ("Utilities", "#FFA07A"); ("Healthcare", "#98D8C8"); ("Shopping", "#F7DC6F");
    ("Other", "#95A5A6") ].

Fixpoint own (o : list (string * string)) (k : string) : option string :=
  match o with
  | [] => None
  | (k', v) :: o' => if String.eqb k' k then Some v else own o' k
  end.

(** What [getCategoryColor] returns: a colour code, or the member of
    [Object.prototype] that the category names. *)
Inductive fill : Type :=
| Colour (hex : string)
| Member (name : string).

(** [colorMap[category] || '#95A5A6']: an own property is a non-empty
    string, an inherited member is a function or an object, and both are
    truthy. *)
Definition getCategoryColor (category : string) : fill :=
  match own colorMap category with
  | Some hex => if nonempty hex then Colour hex else Colour "#95A5A6"
  | None => if inherited category then Member category else Colour "#95A5A6"
  end.

End Helpers.

(** *** [components/ExpenseForm.js] *)

Module FormData.
(** The state [formData]: what the inputs hold, or the expense being
    edited. *)
Record formData : Type := mk {
  amount : jsval;
  category : text;
  date : text;
  description : text
}.
End FormData.

Module ExpenseData.
(** What the form hands to [onSubmit]. *)
Record expenseData : Type := mk {
  amount : number;
  category : text;
  date : text;
  description : text
}.
End ExpenseData.

Module ExpenseForm.

Import Helpers.

Abbreviation formData := FormData.formData.
Abbreviation expenseData := ExpenseData.expenseData.

Section Form.

(** [isValidDate] of [utils/helpers.js] asks the [Date] constructor whether
    it can read the string; which strings it reads is left to the engine. *)
Variable isValidDate : string → bool.

(** [validateForm]: the entries of [newErrors], in the order they are
    written, and whether there is none. *)
Definition validateForm (f : formData) : list (string * string) * bool :=
  let newErrors :=
    (if negb (truthy_val (FormData.amount f))
        || negb (isValidAmount (FormData.amount f))
     then [("amount", "Please enter a valid amount")] else [])
    ++ (if negb (truthy_text (FormData.category f))
        then [("category", "Please select a category")] else [])
    ++ (if negb (truthy_text (FormData.date f))
           || negb (isValidDate (Server.string_of (FormData.date f)))
        then [("date", "Please select a valid date")] else []) in
  (newErrors, Nat.eqb (length newErrors) 0).

(** [handleSubmit]: nothing is submitted when the validation fails;
    otherwise [onSubmit] gets the form data with the amount parsed. The
    reset of the form that follows is left out. *)
Definition handleSubmit (f : formData) : option expenseData :=
  if (validateForm f).2
  then Some {| ExpenseData.amount := parseFloat (FormData.amount f);
               ExpenseData.category := FormData.category f;
               ExpenseData.date := FormData.date f;
               ExpenseData.description := FormData.description f |}
  else None.

End Form.

(** The effect that loads the categories: [data] is what [fetchCategories]
    returned, [categories] the state before. *)
Definition loadCategories (data categories : list string) : list string :=
  match data with
  | [] => categories
  | _ => filter (λ cat, cat ≠ "Other") data
  end.

(** What [handleAddCategory] leaves: the alert shown, the state
    [categories], the category written into the form data if any, and the
    arrays of the server. *)
Record added : Type := mkAdded {
  alert : string;
  categories : list string;
  selected : option string;
  server : Server.state
}.

(** [handleAddCategory]; [createCategory] posts [{ name }] and returns the
    [data] of the response, and rejects with the response for a status
    outside 2xx. The flags that show and lock the input are left out. *)
Definition handleAddCategory
  (newCategoryInput : string) (categories : list string) (st : Server.state)
  : added :=
  let trimmedInput := trim newCategoryInput in
  if negb (nonempty trimmedInput)
  then mkAdded "Please enter a category name" categories None st
  else
    match Server.post_category (TStr trimmedInput) st with
    | (Server.Ok _ (newCategory, _), st') =>
        mkAdded "Category added successfully!" (categories ++ [newCategory])
                (Some newCategory) st'
    | (Server.Err _ error, st') =>
        mkAdded (if nonempty error then error
                 else "Failed to add category. Please try again.")
                categories None st'
    end.

End ExpenseForm.

(** *** [services/ExpenseService.js] *)

Module ExpenseService.

(** The body of a create or update request as the server reads it: the
    amount goes through JSON, the text fields are unchanged, and a field
    that is [undefined] is left out. *)
Definition body_json (d : ExpenseData.expenseData) : Body.body :=
  {| Body.amount := jsval_of (number_json (ExpenseData.amount d));
     Body.category := ExpenseData.category d;
     Body.date := ExpenseData.date d;
     Body.description := ExpenseData.description d |}.

(** The [data] of the summary response as the client reads it. *)
Definition summary_json (rows : list Row.row) : list SummaryItem.summary_item :=
  (λ r, SummaryItem.mk (Row.category r) (total_json (Row.total r))) <$> rows.

End ExpenseService.

(** *** [components/CategoryFilter.js] *)

Module CategoryFilter.

(** [Array.prototype.sort] without a comparator orders strings by their
    code units; on distinct strings the result is the one ascending
    arrangement, built here by insertion. *)
Fixpoint insert (c : string) (l : list string) : list string :=
  match l with
  | [] => [c]
  | x :: l' => if String.leb c x then c :: l else x :: insert c l'
  end.

Definition sort (l : list string) : list string := foldr insert [] l.

(** [[...new Set(data.map(expense => expense.category))].sort()]: a [Set]
    keeps its elements in the order they are first added. *)
Definition uniqueCategories (data : list Expense.expense) : list string :=
  sort (Spec.first_seen (Expense.category <$> data)).

(** [categories.length > 0 ? ['All', ...categories] : []] *)
Definition allCategories (categories : list string) : list string :=
  match categories with
  | [] => []
  | _ => "All" :: categories
  end.

End CategoryFilter.

(** *** [App.js] and the data of [ExpenseSummary.js] *)

Module App.

(** The state [summary] and [grandTotal]. *)
Record totals : Type := mkTotals {
  summary : list SummaryItem.summary_item;
  grandTotal : number
}.

(** [loadSummary]: [data.data || []] and [data.grandTotal || 0] of the
    response; a response outside 2xx is caught and changes nothing. *)
Definition loadSummary
  (r : Server.response (list Row.row * number)) (s : totals) : totals :=
  match r with
  | Server.Ok _ (rows, g) =>
      {| summary := ExpenseService.summary_json rows;
         grandTotal := match number_json g with
                       | Some x => if truthy x then x else zero
                       | None => zero
                       end |}
  | Server.Err _ _ => s
  end.

(** The request [handleSubmit] sends: an update of the expense being edited,
    whose identifier is [editingExpense], or else a creation. The messages
    it sets and the reloads that follow are left out. *)
Definition handleSubmit
  (editingExpense : option string) (expenseData : ExpenseData.expenseData)
  (uuid : string) (st : Server.state)
  : Server.response (Expense.expense * string) * Server.state :=
  match editingExpense with
  | Some id => Server.put_expense id (ExpenseService.body_json expenseData) st
  | None => Server.post_expense uuid (ExpenseService.body_json expenseData) st
  end.

End App.

Module SummaryData.

Import ExpenseSummary Helpers.

(** The state [displayData] and [colors] of [ExpenseSummary]. *)
Record shown : Type := mkShown {
  displayData : list item;
  colors : list fill
}.

(** [parseFloat(item.total)] *)
Definition parse_total (t : received) : number :=
  match t with
  | RNumber x => parseFloat (JNum x)
  | RNull => parseFloat JNull
  | RText _ _ => nan
  end.

(** The effect on [summary]: an empty summary sets nothing. *)
Definition prepare (summary : list SummaryItem.summary_item) (s : shown) : shown :=
  match summary with
  | [] => s
  | _ =>
      let data :=
        (λ it, mkItem (SummaryItem.category it)
                      (parse_total (SummaryItem.total it))) <$> summary in
      {| displayData := data;
         colors := (λ it, getCategoryColor (category it)) <$> data |}
  end.

(** The summary card once [loadSummary] has run against the server and the
    effect has settled: the data, the colours, the grand total and the
    percentage breakdown. *)
Definition refresh (st : Server.state) (t : App.totals) (s : shown)
  : App.totals * shown :=
  let t' := App.loadSummary (Server.get_summary st) t in
  (t', prepare (App.summary t') s).

Definition percentages (v : App.totals * shown) : list (string * percentage) :=
  breakdown (displayData v.2) (App.grandTotal v.1).

End SummaryData.

(** ** Further vocabulary *)

Module Vocabulary.

Import Server.


(** What the summary reads of an expense. *)
Definition entry (e : expense) : string * number :=
  (Expense.category e, Expense.amount e).

(** [a] comes strictly before [b] in the order of the code units. *)
Definition before (a b : string) : Prop := String.ltb a b = true.

(** What the summary card shows for a total of the server: a finite
    Number as it is, [-0] as [0], and [NaN] for anything else. *)
Definition shown_total (v : propval) : number :=
  match v with
  | PNum (S754_finite s m e) => S754_finite s m e
  | PNum (S754_zero _) => zero
  | _ => nan
  end.

End Vocabulary.

(** ** More sample inputs *)

Module Scenario.

Import Server Spec.

(** The registry after [Travel] has been added with white space around
    it. *)
Definition with_travel : state :=
  handle (PostCategory (TStr "  Travel ")) initial.

(** A form filled in by hand: every field holds the text of its input. *)
Definition lunch : FormData.formData :=
  FormData.mk (JStr "12.5") (TStr "Food") (TStr "2024-01-01") (TStr "lunch").

(** A [Date] constructor that reads every string. *)
Definition any_date (s : string) : bool := true.

(** A summary card that shows one category. *)
Definition food_card : SummaryData.shown :=
  SummaryData.mkShown [ExpenseSummary.mkItem "Food" (numeral "80")]
                      [Helpers.Colour "#FF6B6B"].

Definition no_totals : App.totals := App.mkTotals [] zero.

End Scenario.

(** * Properties *)

Import Server Spec.

(** ** Listing *)

Section Listing.

Variable st : state.



End Listing.



(** ** Creating an expense *)

Lemma truthy_text_false (t : text) : truthy_text t = false ↔ missing_text t.
Proof.
  unfold missing_text. destruct t as [| |[|a s]]; simpl; split;
    try done; auto; intros [H | [H | H]]; discriminate H.
Qed.

Lemma truthy_val_false (v : jsval) : truthy_val v = false ↔ falsy_amount v.
Proof.
  unfold falsy_amount, missing_val.
  destruct v as [| |[]|x|[|a s]]; simpl; split; try done; eauto 6;
    try (intros [[H | [H | H]] | [H | (y & H & Hy)]]; try discriminate H).
  by injection H as <-.
Qed.

Lemma truthy_text_string (t : text) : truthy_text t = true → TStr (string_of t) = t.
Proof. destruct t; simpl; congruence. Qed.

Lemma post_expense_rejects (uuid : string) (b : body) (st : state) :
  rejected b ↔ post_expense uuid b st = (ValidationError_expense, st).
Proof.
  unfold rejected, post_expense.
  rewrite <- truthy_val_false, <- !truthy_text_false.
  destruct (truthy_val _), (truthy_text (Body.category b)),
    (truthy_text (Body.date b)); simpl; split; try done; auto;
    intros [H | [H | H]]; discriminate H.
Qed.




(** ** Updating and deleting *)

Lemma findIndex_unknown (id : string) (st : state) :
  ¬ known id st → findIndex id (expenses st) = None.
Proof.
  intros Hid. apply list_find_None, Forall_forall. intros e He Heq.
  apply Hid. unfold known, ids. rewrite <- Heq. by apply list_elem_of_fmap_2.
Qed.

Lemma findIndex_known (id : string) (st : state) :
  known id st →
  ∃ i e, findIndex id (expenses st) = Some (i, e)
         ∧ expenses st !! i = Some e ∧ Expense.id e = id.
Proof.
  intros (e & -> & He)%list_elem_of_fmap.
  destruct (list_find_elem_of (λ e', Expense.id e' = Expense.id e) _ e He eq_refl)
    as [[i e'] Hfind].
  exists i, e'. split; [done|].
  by apply list_find_Some in Hfind as (? & ? & _).
Qed.

(** C5. Updating fails with the not-found error when no expense has the id.
    Otherwise the record stays at its position with its id, the other
    records and the length of the collection are untouched, and every field
    the partial update does not supply keeps its prior value; an update
    that supplies nothing leaves the record, and the collection, as they
    were. *)
Theorem update_changes_only_supplied_fields (id : string) (b : body) (st : state) :
  (¬ known id st → put_expense id b st = (NotFoundError, st))
  ∧ (known id st →
     ∃ i old new,
       put_expense id b st
       = (Ok 200 (new, "Expense updated successfully"),
          {| expenses := <[i:=new]> (expenses st); categories := categories st |})
       ∧ expenses st !! i = Some old
       ∧ Expense.id old = id
       ∧ <[i:=new]> (expenses st) !! i = Some new
       ∧ length (<[i:=new]> (expenses st)) = length (expenses st)
       ∧ (∀ j, j ≠ i → <[i:=new]> (expenses st) !! j = expenses st !! j)
       ∧ Expense.id new = Expense.id old
       ∧ (Body.amount b = JUndefined → Expense.amount new = Expense.amount old)
       ∧ (Body.category b = TAbsent → Expense.category new = Expense.category old)
       ∧ (Body.date b = TAbsent → Expense.date new = Expense.date old)
       ∧ (Body.description b = TAbsent →
          Expense.description new = Expense.description old)
       ∧ (b = Body.mk JUndefined TAbsent TAbsent TAbsent →
          new = old ∧ <[i:=new]> (expenses st) = expenses st)).
Proof.
  split.
  - intros Hid. unfold put_expense. by rewrite findIndex_unknown.
  - intros (i & old & Hfind & Hi & Hid)%findIndex_known.
    exists i, old, (updated old b). unfold put_expense. rewrite Hfind.
    split_and!; try done.
    + apply list_lookup_insert_eq. by eapply lookup_lt_Some.
    + apply length_insert.
    + intros j Hj. by apply list_lookup_insert_ne.
    + unfold updated. simpl. by intros ->.
    + unfold updated. simpl. by intros ->.
    + unfold updated. simpl. by intros ->.
    + unfold updated. simpl. by intros ->.
    + intros ->. assert (updated old (Body.mk JUndefined TAbsent TAbsent TAbsent) = old)
        as -> by (by destruct old).
      split; [done|]. by apply list_insert_id.
Qed.

Lemma update_changes_only_supplied_fields_witness :
  let b := Body.mk JUndefined (TStr "Transport") TAbsent TAbsent in
  let st := Sample.food_only in
  known "id-2" st
  ∧ ∃ i old new,
      put_expense "id-2" b st
      = (Ok 200 (new, "Expense updated successfully"),
         {| expenses := <[i:=new]> (expenses st); categories := categories st |})
      ∧ expenses st !! i = Some old
      ∧ Expense.id new = Expense.id old
      ∧ Expense.amount new = Expense.amount old
      ∧ Expense.date new = Expense.date old
      ∧ Expense.description new = Expense.description old.
Proof.
  assert (known "id-2" Sample.food_only) as Hk
    by (vm_compute; apply list_elem_of_further, list_elem_of_here).
  split; [exact Hk|].
  destruct (proj2 (update_changes_only_supplied_fields "id-2"
                     (Body.mk JUndefined (TStr "Transport") TAbsent TAbsent)
                     Sample.food_only) Hk)
    as (i & old & new & Hput & Hold & _ & _ & _ & _ & Hid & Ha & _ & Hd & Hds & _).
  exists i, old, new. split_and!; auto.
Defined.

(** The identifiers of the stored expenses are pairwise distinct in every
    state the server can be in. *)
Lemma reachable_ids_distinct (st : state) : reachable st → NoDup (ids (expenses st)).
Proof.
  induction 1 as [|st r _ IH Hadm]; [constructor|].
  destruct r as [uuid b | id b | id | name]; simpl.
  - unfold post_expense.
    destruct (negb _ || negb _ || negb _); [done|]. simpl.
    unfold ids. rewrite fmap_app. apply NoDup_app. split_and!; [done| |].
    + intros x Hx [->|[]%elem_of_nil]%elem_of_cons. by apply Hadm.
    + apply NoDup_singleton.
  - unfold put_expense.
    destruct (findIndex id (expenses st)) as [[i old]|] eqn:Hfind; [|done].
    simpl. unfold ids. rewrite list_fmap_insert. simpl.
    apply list_find_Some in Hfind as (Hi & _ & _).
    rewrite list_insert_id; [done|].
    by rewrite list_lookup_fmap, Hi.
  - unfold delete_expense.
    destruct (findIndex id (expenses st)) as [[i old]|]; [|done].
    simpl. unfold ids. rewrite list_fmap_delete.
    eapply sublist_NoDup; [done | apply sublist_delete].
  - unfold post_category.
    destruct (negb _ || negb _); [done|]. by destruct (existsb _ _).
Qed.

Lemma delete_forgets_the_id (l : list expense) (i : nat) (e : expense) :
  NoDup (ids l) → l !! i = Some e → Expense.id e ∉ ids (delete i l).
Proof.
  intros Hnd Hi. unfold ids in *. rewrite list_fmap_delete, delete_take_drop.
  rewrite <- (take_drop_middle (Expense.id <$> l) i (Expense.id e)) in Hnd
    by (by rewrite list_lookup_fmap, Hi).
  apply NoDup_app in Hnd as (_ & Hl & Hr%NoDup_cons).
  intros [Hin | Hin]%elem_of_app.
  - apply (Hl _ Hin). by left.
  - by destruct Hr.
Qed.

(** C6. In every state the server can be in, deleting fails with the
    not-found error when no expense has the id. Otherwise it removes that
    expense and returns it, the remaining records keeping their relative
    order; afterwards no stored expense, and so no listing, carries the id,
    and deleting the same id again fails with the not-found error. *)
Theorem delete_removes_the_expense (id : string) (st : state) :
  reachable st →
  (¬ known id st → delete_expense id st = (NotFoundError, st))
  ∧ (known id st →
     ∃ i e st',
       delete_expense id st = (Ok 200 (e, "Expense deleted successfully"), st')
       ∧ expenses st !! i = Some e
       ∧ Expense.id e = id
       ∧ expenses st' = take i (expenses st) ++ drop (S i) (expenses st)
       ∧ expenses st' `sublist_of` expenses st
       ∧ categories st' = categories st
       ∧ ¬ known id st'
       ∧ (∀ l n, get_expenses TAbsent st' = Ok 200 (l, n) → id ∉ ids l)
       ∧ delete_expense id st' = (NotFoundError, st')).
Proof.
  intros Hst. split.
  - intros Hid. unfold delete_expense. by rewrite findIndex_unknown.
  - intros (i & e & Hfind & Hi & Hid)%findIndex_known.
    exists i, e. eexists. unfold delete_expense at 1. rewrite Hfind.
    split; [reflexivity|]. simpl.
    assert (¬ known id {| expenses := delete i (expenses st);
                          categories := categories st |}) as Hgone.
    { unfold known. simpl. rewrite <- Hid.
      by apply delete_forgets_the_id; [apply reachable_ids_distinct|]. }
    split_and!; try done.
    + apply delete_take_drop.
    + apply sublist_delete.
    + intros l n [= <- _]. apply Hgone.
    + unfold delete_expense. by rewrite findIndex_unknown.
Qed.

Lemma delete_witness_state :
  reachable (handle (PostExpense "7d9c1e52"
    (Body.mk (JNum (of_Z 50)) (TStr "Food") (TStr "2024-01-01") TAbsent)) initial).
Proof. apply reachable_step; [apply reachable_initial | apply not_elem_of_nil]. Defined.

Lemma delete_removes_the_expense_witness :
  let st := handle (PostExpense "7d9c1e52"
    (Body.mk (JNum (of_Z 50)) (TStr "Food") (TStr "2024-01-01") TAbsent)) initial in
  known "7d9c1e52" st
  ∧ ∃ i e st',
      delete_expense "7d9c1e52" st
      = (Ok 200 (e, "Expense deleted successfully"), st')
      ∧ expenses st !! i = Some e
      ∧ Expense.id e = "7d9c1e52"
      ∧ expenses st' = take i (expenses st) ++ drop (S i) (expenses st)
      ∧ expenses st' `sublist_of` expenses st
      ∧ categories st' = categories st
      ∧ ¬ known "7d9c1e52" st'
      ∧ (∀ l n, get_expenses TAbsent st' = Ok 200 (l, n) → "7d9c1e52" ∉ ids l)
      ∧ delete_expense "7d9c1e52" st' = (NotFoundError, st').
Proof.
  assert (known "7d9c1e52" (handle (PostExpense "7d9c1e52"
    (Body.mk (JNum (of_Z 50)) (TStr "Food") (TStr "2024-01-01") TAbsent)) initial))
    as Hk by (vm_compute; apply list_elem_of_here).
  split; [exact Hk|].
  exact (proj2 (delete_removes_the_expense "7d9c1e52" _ delete_witness_state) Hk).
Defined.

(** C10. In an update, a category or a date supplied as the empty string is
    treated as one that is not supplied: the response and the arrays are the
    same, the prior value being kept. A description supplied as the empty
    string is written over the prior one, while a description that is not
    supplied keeps it. *)
Theorem update_empty_string_asymmetry
  (id : string) (a : jsval) (c d ds : text) (st : state) :
  put_expense id (Body.mk a (TStr "") d ds) st
  = put_expense id (Body.mk a TAbsent d ds) st
  ∧ put_expense id (Body.mk a c (TStr "") ds) st
    = put_expense id (Body.mk a c TAbsent ds) st
  ∧ (known id st →
     ∃ i old new kept,
       expenses st !! i = Some old
       ∧ put_expense id (Body.mk a c d (TStr "")) st
         = (Ok 200 (new, "Expense updated successfully"),
            {| expenses := <[i:=new]> (expenses st); categories := categories st |})
       ∧ Expense.description new = TStr ""
       ∧ put_expense id (Body.mk a c d TAbsent) st
         = (Ok 200 (kept, "Expense updated successfully"),
            {| expenses := <[i:=kept]> (expenses st); categories := categories st |})
       ∧ Expense.description kept = Expense.description old).
Proof.
  split_and!.
  - unfold put_expense. by destruct (findIndex id (expenses st)) as [[i old]|].
  - unfold put_expense. by destruct (findIndex id (expenses st)) as [[i old]|].
  - intros (i & old & Hfind & Hi & Hid)%findIndex_known.
    exists i, old. do 2 eexists. unfold put_expense. rewrite Hfind.
    split_and!; done.
Qed.

Lemma update_empty_string_asymmetry_witness :
  let st := {| expenses := [Expense.mk "id-1" (numeral "50") "Food" "2024-01-01"
                              (TStr "lunch")];
               categories := [] |} in
  known "id-1" st
  ∧ ∃ i old new kept,
      expenses st !! i = Some old
      ∧ put_expense "id-1" (Body.mk JUndefined TAbsent TAbsent (TStr "")) st
        = (Ok 200 (new, "Expense updated successfully"),
           {| expenses := <[i:=new]> (expenses st); categories := categories st |})
      ∧ Expense.description new = TStr ""
      ∧ put_expense "id-1" (Body.mk JUndefined TAbsent TAbsent TAbsent) st
        = (Ok 200 (kept, "Expense updated successfully"),
           {| expenses := <[i:=kept]> (expenses st); categories := categories st |})
      ∧ Expense.description kept = Expense.description old.
Proof.
  assert (known "id-1"
            {| expenses := [Expense.mk "id-1" (numeral "50") "Food" "2024-01-01"
                              (TStr "lunch")];
               categories := [] |}) as Hk by apply list_elem_of_here.
  split; [exact Hk|].
  exact (proj2 (proj2 (update_empty_string_asymmetry "id-1" JUndefined TAbsent
                         TAbsent TAbsent _)) Hk).
Defined.

(** ** The category registry *)

Lemma trimStart_empty (s : string) :
  trimStart s = "" ↔ Forall (λ c, is_whitespace c = true) (chars s).
Proof.
  induction s as [|c s IH]; simpl; [by split|].
  destruct (is_whitespace c) eqn:Hc.
  - rewrite IH, Forall_cons. tauto.
  - split; [done|]. intros [Hc' _]%Forall_cons. congruence.
Qed.

Lemma trimEnd_empty (s : string) :
  trimEnd s = "" ↔ Forall (λ c, is_whitespace c = true) (chars s).
Proof.
  induction s as [|c s IH]; simpl; [by split|].
  rewrite Forall_cons, <- IH.
  destruct (trimEnd s); [|split; [done | by intros [_ ?]]].
  destruct (is_whitespace c); split; try done; by intros [? _].
Qed.

Lemma trimStart_whitespace (s : string) :
  Forall (λ c, is_whitespace c = true) (chars (trimStart s)) →
  Forall (λ c, is_whitespace c = true) (chars s).
Proof.
  induction s as [|c s IH]; simpl; [done|].
  destruct (is_whitespace c) eqn:Hc; [|done].
  intros H. constructor; auto.
Qed.

(** Trimming leaves nothing exactly when the string is empty or all white
    space. *)
Lemma trim_empty (s : string) :
  trim s = "" ↔ Forall (λ c, is_whitespace c = true) (chars s).
Proof.
  unfold trim. rewrite trimEnd_empty. split; [apply trimStart_whitespace|].
  intros H. by apply trimStart_empty in H as ->.
Qed.

Lemma nonempty_false (s : string) : nonempty s = false ↔ s = "".
Proof. by destruct s. Qed.

Lemma nonempty_true (s : string) : nonempty s = true ↔ s ≠ "".
Proof. by destruct s. Qed.

Lemma post_category_blank (s : string) (st : state) :
  trim s = "" → post_category (TStr s) st = (ValidationError_category, st).
Proof.
  intros Ht. unfold post_category. simpl string_of. rewrite Ht. simpl.
  by rewrite orb_true_r.
Qed.

Lemma post_category_validated (s : string) (st : state) :
  trim s ≠ "" →
  post_category (TStr s) st
  = if existsb (λ c, String.eqb (toLowerCase c) (toLowerCase (trim s)))
         (categories st)
    then (ConflictError, st)
    else (Ok 201 (trim s, "Category created successfully"),
          {| expenses := expenses st; categories := categories st ++ [trim s] |}).
Proof.
  intros Ht. unfold post_category. simpl string_of.
  assert (s ≠ "") as Hs by (by intros ->).
  apply nonempty_true in Ht, Hs. simpl truthy_text. by rewrite Ht, Hs.
Qed.

(** C7, as amended. Creating a category fails with the validation error when
    the name is missing or, once trimmed, empty (that is, empty or all white
    space); it fails with the conflict error when a category equal to the
    trimmed name up to case is registered; otherwise it appends the trimmed
    name and returns it. The two failures are sent with the same status, 400,
    and are told apart by their error message only. *)
Theorem category_create_outcomes (s : string) (st : state) :
  post_category TAbsent st = (ValidationError_category, st)
  ∧ post_category TNull st = (ValidationError_category, st)
  ∧ (trim s = "" ↔ Forall (λ c, is_whitespace c = true) (chars s))
  ∧ (trim s = "" → post_category (TStr s) st = (ValidationError_category, st))
  ∧ (trim s ≠ "" →
     (∃ c, c ∈ categories st ∧ toLowerCase c = toLowerCase (trim s)) →
     post_category (TStr s) st = (ConflictError, st))
  ∧ (trim s ≠ "" →
     (∀ c, c ∈ categories st → toLowerCase c ≠ toLowerCase (trim s)) →
     post_category (TStr s) st
     = (Ok 201 (trim s, "Category created successfully"),
        {| expenses := expenses st; categories := categories st ++ [trim s] |}))
  ∧ status_of (@ValidationError_category (string * string)) = 400
  ∧ status_of (@ConflictError (string * string)) = 400
  ∧ @ValidationError_category (string * string) ≠ ConflictError.
Proof.
  split_and!; try done.
  - apply trim_empty.
  - apply post_category_blank.
  - intros Ht (c & Hc & Heq). rewrite post_category_validated by done.
    replace (existsb _ _) with true; [done|].
    symmetry. apply existsb_exists. exists c.
    split; [by apply list_elem_of_In | by apply String.eqb_eq].
  - intros Ht Hfree. rewrite post_category_validated by done.
    replace (existsb _ _) with false; [done|].
    symmetry. apply not_true_is_false.
    intros (c & Hc%list_elem_of_In & Heq%String.eqb_eq)%existsb_exists.
    by apply (Hfree c).
Qed.

Lemma category_create_outcomes_witness :
  trim "  Travel " ≠ ""
  ∧ (∀ c, c ∈ categories initial → toLowerCase c ≠ toLowerCase (trim "  Travel "))
  ∧ post_category (TStr "  Travel ") initial
    = (Ok 201 ("Travel", "Category created successfully"),
       {| expenses := []; categories := categories initial ++ ["Travel"] |}).
Proof.
  assert (trim "  Travel " ≠ "") as Ht by done.
  assert (∀ c, c ∈ categories initial →
               toLowerCase c ≠ toLowerCase (trim "  Travel ")) as Hfree.
  { apply Forall_forall. repeat constructor; by vm_compute. }
  split_and!; [exact Ht | exact Hfree |].
  destruct (category_create_outcomes "  Travel " initial)
    as (_ & _ & _ & _ & _ & Hnew & _).
  exact (Hnew Ht Hfree).
Defined.

(** C7, as stated, fails: the failure for a bad input and the failure for a
    conflict are sent in the same status class. *)
Lemma category_failures_share_their_status :
  let bad := fst (post_category (TStr "   ") initial) in
  let dup := fst (post_category (TStr "food") initial) in
  bad = ValidationError_category
  ∧ dup = ConflictError
  ∧ status_class bad = status_class dup.
Proof. by vm_compute. Qed.

(** ** The stored amount *)

Lemma parseFloat_positive_finite (x : number) :
  positive_finite x = true → parseFloat (JNum x) = x.
Proof. by destruct x as [[]| | |]. Qed.

(** C8, as amended. After a successful create the stored amount is
    [parseFloat] of the supplied amount, which was truthy; after a successful
    update it is [parseFloat] of the supplied amount, or the prior amount
    when none is supplied. Neither handler looks at the sign or the
    finiteness of the result: the stored amount is a finite positive Number
    when the parsed value is one, as it is for every finite positive Number
    the client sends. *)
Theorem stored_amount_is_the_parsed_amount (b : body) (st : state) :
  (∀ uuid s e msg st',
     post_expense uuid b st = (Ok s (e, msg), st') →
     truthy_val (Body.amount b) = true
     ∧ Expense.amount e = parseFloat (Body.amount b)
     ∧ expenses st' = expenses st ++ [e])
  ∧ (∀ id s e msg st',
       put_expense id b st = (Ok s (e, msg), st') →
       ∃ i old,
         expenses st !! i = Some old
         ∧ expenses st' = <[i:=e]> (expenses st)
         ∧ Expense.amount e
           = match Body.amount b with
             | JUndefined => Expense.amount old
             | a => parseFloat a
             end)
  ∧ (∀ x, Body.amount b = JNum x → positive_finite x = true →
          parseFloat (Body.amount b) = x).
Proof.
  split_and!.
  - intros uuid s e msg st'. unfold post_expense.
    destruct (truthy_val (Body.amount b)); [|done].
    destruct (negb _ || negb _ || negb _); [done|].
    by intros [= <- <- <- <-].
  - intros id s e msg st'. unfold put_expense.
    destruct (findIndex id (expenses st)) as [[i old]|] eqn:Hfind; [|done].
    intros [= <- <- <- <-]. exists i, old.
    by apply list_find_Some in Hfind as (? & _ & _).
  - intros x -> Hx. by apply parseFloat_positive_finite.
Qed.

Lemma stored_amount_is_the_parsed_amount_witness :
  let b := Sample.create "12.5" "Food" "2024-01-01" in
  ∃ e st',
    post_expense "id-1" b initial
    = (Ok 201 (e, "Expense added successfully"), st')
    ∧ Expense.amount e = parseFloat (Body.amount b)
    ∧ Body.amount b = JNum (numeral "12.5")
    ∧ positive_finite (numeral "12.5") = true
    ∧ parseFloat (Body.amount b) = numeral "12.5".
Proof.
  do 2 eexists. split; [reflexivity|].
  destruct (stored_amount_is_the_parsed_amount
              (Sample.create "12.5" "Food" "2024-01-01") initial)
    as (Hpost & _ & Hpos).
  destruct (Hpost "id-1" _ _ _ _ eq_refl) as (_ & Ha & _).
  split_and!; [exact Ha | reflexivity | reflexivity |].
  by apply Hpos.
Defined.

(** C8, as stated, fails: a negative amount is accepted and stored. *)
Lemma create_stores_a_negative_amount :
  let b := Body.mk (JNum (of_Z (-5))) (TStr "Food") (TStr "2024-01-01") TAbsent in
  ∃ e st',
    post_expense "7d9c1e52" b initial
    = (Ok 201 (e, "Expense added successfully"), st')
    ∧ expenses st' = [e]
    ∧ Expense.amount e = of_Z (-5)
    ∧ positive_finite (Expense.amount e) = false.
Proof. do 2 eexists. by vm_compute. Qed.

(** An update stores what [parseFloat] returns as well: [NaN] for a text
    that starts no numeral. *)
Example update_stores_nan :
  let e := Expense.mk "7d9c1e52" (of_Z 50) "Food" "2024-01-01" (TStr "") in
  let st := {| expenses := [e]; categories := [] |} in
  expenses (snd (put_expense "7d9c1e52"
                   (Body.mk (JStr "abc") TAbsent TAbsent TAbsent) st))
  = [Expense.mk "7d9c1e52" nan "Food" "2024-01-01" (TStr "")].
Proof. reflexivity. Qed.

(** ** The percentage breakdown *)

Import ExpenseSummary.





(** ** Floating-point addition *)

Section Rounding.

Lemma iter_pos_invariant {A} (P : A → Prop) (f : A → A) :
  (∀ x, P x → P (f x)) → ∀ p x, P x → P (SpecFloat.iter_pos f p x).
Proof.
  intros Hf. induction p as [p IH|p IH|]; simpl; auto.
Qed.

Lemma shr_1_nonneg (mrs : shr_record) : 0 ≤ shr_m mrs → 0 ≤ shr_m (shr_1 mrs).
Proof.
  destruct mrs as [m r s]. simpl. destruct m as [|[p|p|]|[p|p|]]; simpl; lia.
Qed.

Lemma shr_nonneg (mrs : shr_record) (e n : Z) :
  0 ≤ shr_m mrs → 0 ≤ shr_m (shr mrs e n).1.
Proof.
  intros Hm. destruct n as [|p|p]; simpl; try done.
  by apply (iter_pos_invariant (λ x, 0 ≤ shr_m x)); [apply shr_1_nonneg|].
Qed.

Lemma shr_fexp_nonneg (m e : Z) (l : location) :
  0 ≤ m → 0 ≤ shr_m (shr_fexp prec emax m e l).1.
Proof.
  intros Hm. unfold shr_fexp. apply shr_nonneg.
  by destruct l as [|[]].
Qed.

Lemma round_nearest_even_nonneg (m : Z) (l : location) :
  0 ≤ m → 0 ≤ round_nearest_even m l.
Proof.
  intros Hm. destruct l as [|[]]; simpl; try done; [|lia].
  destruct (Z.even m); lia.
Qed.

Lemma binary_round_aux_not_nan (sx : bool) (mx ex : Z) (lx : location) :
  0 ≤ mx → is_nan (binary_round_aux prec emax sx mx ex lx) = false.
Proof.
  intros Hm. unfold binary_round_aux.
  pose proof (shr_fexp_nonneg mx ex lx Hm) as H1.
  destruct (shr_fexp prec emax mx ex lx) as [mrs' e']. simpl in H1.
  pose proof (shr_fexp_nonneg _ e' loc_Exact
                (round_nearest_even_nonneg _ (loc_of_shr_record mrs') H1)) as H2.
  destruct (shr_fexp prec emax _ e' loc_Exact) as [mrs'' e'']. simpl in H2.
  destruct (shr_m mrs'') as [|m|m]; [done| |lia].
  by destruct (_ <=? _).
Qed.

Lemma binary_normalize_not_nan (m e : Z) (szero : bool) :
  is_nan (binary_normalize prec emax m e szero) = false.
Proof.
  destruct m as [|p|p]; simpl; [done| |];
    unfold binary_round; destruct (shl_align _ _ _);
    by apply binary_round_aux_not_nan.
Qed.

End Rounding.

(** Adding a finite Number to one that is not [NaN] does not give [NaN]. *)
Lemma add_not_nan (x y : number) :
  is_nan x = false → plain y = true → is_nan (add x y) = false.
Proof.
  destruct x as [sx|sx| |sx mx ex], y as [[]|sy| |sy my ey]; try done;
    intros _ _; try (by destruct sx).
  apply binary_normalize_not_nan.
Qed.

(** Before a finite Number other than [-0] is added, replacing a falsy
    running total by [+0] changes nothing unless the total is [NaN]. *)
Lemma add_or_zero (t a : number) :
  is_nan t = false → plain a = true →
  add (if truthy t then t else zero) a = add t a.
Proof.
  destruct t as [[]|st| |st mt et], a as [[]|sa| |sa ma ea]; done.
Qed.

(** ** Exact sums of whole numbers *)

Lemma digits2_pos_bounds (p : positive) :
  2 ^ (Zpos (digits2_pos p) - 1) ≤ Zpos p < 2 ^ Zpos (digits2_pos p).
Proof.
  induction p as [p IH|p IH|]; simpl digits2_pos; [| |simpl; lia].
  - rewrite Pos2Z.inj_succ. replace (Z.succ (Z.pos (digits2_pos p)) - 1) with (Z.pos (digits2_pos p)) by lia.
    rewrite Z.pow_succ_r by lia.
    replace (Z.pos (digits2_pos p)) with (Z.succ (Z.pos (digits2_pos p) - 1)) at 1 by lia.
    rewrite Z.pow_succ_r by lia. lia.
  - rewrite Pos2Z.inj_succ. replace (Z.succ (Z.pos (digits2_pos p)) - 1) with (Z.pos (digits2_pos p)) by lia.
    rewrite Z.pow_succ_r by lia.
    replace (Z.pos (digits2_pos p)) with (Z.succ (Z.pos (digits2_pos p) - 1)) at 1 by lia.
    rewrite Z.pow_succ_r by lia. lia.
Qed.

Lemma digits2_pos_unique (p : positive) (d : Z) :
  2 ^ (d - 1) ≤ Zpos p < 2 ^ d → Zpos (digits2_pos p) = d.
Proof.
  intros [Hl Hu]. pose proof (digits2_pos_bounds p) as [Hl' Hu'].
  assert (0 < d) as Hd.
  { destruct (Z.lt_trichotomy d 0) as [H|[->|H]]; [|simpl in Hu; lia|done].
    rewrite Z.pow_neg_r in Hu by done. lia. }
  assert (d - 1 < Zpos (digits2_pos p)).
  { apply (Z.pow_lt_mono_r_iff 2); lia. }
  assert (Zpos (digits2_pos p) - 1 < d).
  { apply (Z.pow_lt_mono_r_iff 2); lia. }
  lia.
Qed.

Lemma digits2_pos_shift (p : positive) (j : Z) :
  0 ≤ j →
  Zpos (digits2_pos (Z.to_pos (Zpos p * 2 ^ j))) = Zpos (digits2_pos p) + j.
Proof.
  intros Hj. apply digits2_pos_unique.
  pose proof (digits2_pos_bounds p) as [Hl Hu].
  assert (0 < 2 ^ j) by (by apply Z.pow_pos_nonneg).
  rewrite Z2Pos.id by lia.
  replace (Z.pos (digits2_pos p) + j - 1) with ((Z.pos (digits2_pos p) - 1) + j) by lia.
  rewrite !Z.pow_add_r by lia. nia.
Qed.

Lemma pos_iter_xO (m p : positive) :
  Zpos (Pos.iter xO m p) = Zpos m * 2 ^ Zpos p.
Proof.
  induction p as [|p IH] using Pos.peano_ind.
  - simpl. lia.
  - rewrite Pos.iter_succ, Pos2Z.inj_succ, Z.pow_succ_r by lia.
    rewrite Pos2Z.inj_xO, IH. lia.
Qed.

Lemma shr_1_double (w : Z) :
  0 < w → shr_1 (Build_shr_record (2 * w) false false) = Build_shr_record w false false.
Proof. by destruct w. Qed.

Lemma pow2_xO (p : positive) : 2 ^ Z.pos p~0 = 2 ^ Z.pos p * 2 ^ Z.pos p.
Proof.
  replace (Z.pos p~0) with (Z.pos p + Z.pos p) by lia.
  by rewrite Z.pow_add_r by lia.
Qed.

Lemma pow2_xI (p : positive) : 2 ^ Z.pos p~1 = 2 * (2 ^ Z.pos p * 2 ^ Z.pos p).
Proof.
  replace (Z.pos p~1) with (Z.succ (Z.pos p + Z.pos p)) by lia.
  by rewrite Z.pow_succ_r, Z.pow_add_r by lia.
Qed.

Lemma iter_pos_xI {A} (f : A → A) (p : positive) (x : A) :
  SpecFloat.iter_pos f p~1 x = SpecFloat.iter_pos f p (SpecFloat.iter_pos f p (f x)).
Proof. done. Qed.

Lemma iter_pos_xO {A} (f : A → A) (p : positive) (x : A) :
  SpecFloat.iter_pos f p~0 x = SpecFloat.iter_pos f p (SpecFloat.iter_pos f p x).
Proof. done. Qed.

Lemma shr_exact (p : positive) (z : Z) :
  0 < z →
  SpecFloat.iter_pos shr_1 p (Build_shr_record (z * 2 ^ Zpos p) false false)
  = Build_shr_record z false false.
Proof.
  revert z. induction p as [p IH|p IH|]; intros z Hz.
  - rewrite iter_pos_xI. assert (0 < 2 ^ Z.pos p) by (by apply Z.pow_pos_nonneg).
    replace (z * 2 ^ Z.pos p~1) with (2 * ((z * 2 ^ Z.pos p) * 2 ^ Z.pos p)).
    2:{ rewrite pow2_xI. lia. }
    rewrite shr_1_double by nia. rewrite IH by nia. by apply IH.
  - rewrite iter_pos_xO. assert (0 < 2 ^ Z.pos p) by (by apply Z.pow_pos_nonneg).
    replace (z * 2 ^ Z.pos p~0) with ((z * 2 ^ Z.pos p) * 2 ^ Z.pos p).
    2:{ rewrite pow2_xO. lia. }
    rewrite IH by nia. by apply IH.
  - replace (z * 2 ^ 1) with (2 * z) by lia.
    change (shr_1 (Build_shr_record (2 * z) false false) = Build_shr_record z false false).
    by apply shr_1_double.
Qed.

Lemma shr_fexp_noop (m : positive) (e : Z) :
  fexp prec emax (Zpos (digits2_pos m) + e) = e →
  shr_fexp prec emax (Zpos m) e loc_Exact = (Build_shr_record (Zpos m) false false, e).
Proof.
  intros He. unfold shr_fexp. simpl Zdigits2. rewrite He, Z.sub_diag. done.
Qed.

Lemma shr_fexp_exact (mx : positive) (ex : Z) (n m1 : positive) :
  fexp prec emax (Zpos (digits2_pos mx) + ex) - ex = Zpos n →
  Zpos mx = Zpos m1 * 2 ^ Zpos n →
  shr_fexp prec emax (Zpos mx) ex loc_Exact
  = (Build_shr_record (Zpos m1) false false, ex + Zpos n).
Proof.
  intros Hn Hm. unfold shr_fexp. simpl Zdigits2. rewrite Hn.
  unfold shr, shr_record_of_loc. rewrite Hm. by rewrite shr_exact.
Qed.

(** A mantissa of 53 digits with an exponent in range is returned as it is. *)
Lemma binary_round_aux_canonical (s : bool) (m : positive) (e : Z) :
  fexp prec emax (Zpos (digits2_pos m) + e) = e → e ≤ emax - prec →
  binary_round_aux prec emax s (Zpos m) e loc_Exact = S754_finite s m e.
Proof.
  intros He Hmax. unfold binary_round_aux.
  rewrite shr_fexp_noop by done. simpl.
  rewrite shr_fexp_noop by done. simpl.
  by rewrite (proj2 (Z.leb_le _ _)) by done.
Qed.

Lemma fexp_small (d : Z) : 1 ≤ d → d ≤ 53 → fexp prec emax d = d - 53.
Proof. intros ??. unfold fexp, emin, prec, emax. lia. Qed.

(** Rounding [p * 2^k * 2^-k], a whole number below 2^53, loses nothing. *)
Lemma binary_round_exact (s : bool) (p : positive) (k : Z) :
  0 ≤ k → Zpos p < 2 ^ 53 →
  binary_round prec emax s (Z.to_pos (Zpos p * 2 ^ k)) (- k)
  = S754_finite s (Z.to_pos (Zpos p * 2 ^ (53 - Zpos (digits2_pos p))))
                (Zpos (digits2_pos p) - 53).
Proof.
  intros Hk Hp.
  pose proof (digits2_pos_bounds p) as [Hl _].
  assert (Zpos (digits2_pos p) ≤ 53) as Hd.
  { assert (Zpos (digits2_pos p) - 1 < 53); [|lia].
    apply (Z.pow_lt_mono_r_iff 2); lia. }
  set (d := Zpos (digits2_pos p)) in *.
  assert (1 ≤ d) as Hd1 by (unfold d; lia).
  assert (0 < 2 ^ k) as Hpk by (by apply Z.pow_pos_nonneg).
  assert (0 < 2 ^ (53 - d)) as Hpd by (apply Z.pow_pos_nonneg; lia).
  set (m1 := Z.to_pos (Zpos p * 2 ^ (53 - d))).
  assert (Zpos m1 = Zpos p * 2 ^ (53 - d)) as Hm1 by (unfold m1; rewrite Z2Pos.id; lia).
  assert (fexp prec emax (Zpos (digits2_pos m1) + (d - 53)) = d - 53) as Hcanon.
  { unfold m1. rewrite digits2_pos_shift by lia. fold d.
    replace (d + (53 - d) + (d - 53)) with d by lia. by apply fexp_small. }
  set (mx := Z.to_pos (Zpos p * 2 ^ k)).
  assert (Zpos mx = Zpos p * 2 ^ k) as Hmx by (unfold mx; rewrite Z2Pos.id; lia).
  assert (Zpos (digits2_pos mx) = d + k) as Hdig
    by (unfold mx; by rewrite digits2_pos_shift).
  assert (fexp prec emax (Zpos (digits2_pos mx) + - k) = d - 53) as Hfexp.
  { rewrite Hdig. replace (d + k + - k) with d by lia. by apply fexp_small. }
  unfold binary_round. rewrite Hfexp. unfold shl_align.
  destruct (d - 53 - - k) as [|n|n] eqn:Hn.
  - assert (mx = m1) as ->.
    { apply Pos2Z.inj. rewrite Hmx, Hm1. f_equal. f_equal. lia. }
    replace (- k) with (d - 53) by lia.
    apply binary_round_aux_canonical; [done | unfold emax, prec; lia].
  - unfold binary_round_aux.
    rewrite (shr_fexp_exact mx (- k) n m1).
    + simpl round_nearest_even. replace (- k + Z.pos n) with (d - 53) by lia.
      rewrite shr_fexp_noop by done. simpl.
      rewrite (proj2 (Z.leb_le _ _)); [done | unfold emax, prec; lia].
    + rewrite Hfexp. lia.
    + rewrite Hmx, Hm1, <- Z.mul_assoc, <- Z.pow_add_r by lia.
      f_equal. f_equal. lia.
  - assert (Pos.iter xO mx n = m1) as ->.
    { apply Pos2Z.inj. rewrite pos_iter_xO, Hmx, Hm1, <- Z.mul_assoc, <- Z.pow_add_r by lia.
      f_equal. f_equal. lia. }
    apply binary_round_aux_canonical; [done | unfold emax, prec; lia].
Qed.

Lemma digits_le_53 (p : positive) : Zpos p < 2 ^ 53 → Zpos (digits2_pos p) ≤ 53.
Proof.
  intros Hp. pose proof (digits2_pos_bounds p) as [Hl _].
  assert (Zpos (digits2_pos p) - 1 < 53); [|lia].
  apply (Z.pow_lt_mono_r_iff 2); lia.
Qed.

Lemma mantissa53_value (p : positive) :
  Zpos p < 2 ^ 53 → Zpos (mantissa53 p) = Zpos p * 2 ^ (- exponent53 p).
Proof.
  intros Hp. pose proof (digits_le_53 p Hp).
  unfold mantissa53, exponent53.
  assert (0 < 2 ^ (53 - Zpos (digits2_pos p))) by (apply Z.pow_pos_nonneg; lia).
  rewrite Z2Pos.id by lia. f_equal. f_equal. lia.
Qed.

Lemma of_Z_pos (p : positive) :
  Zpos p < 2 ^ 53 → of_Z (Zpos p) = S754_finite false (mantissa53 p) (exponent53 p).
Proof.
  intros Hp. unfold of_Z, binary_normalize.
  pose proof (binary_round_exact false p 0 (Z.le_refl 0) Hp) as H.
  rewrite Z.pow_0_r, Z.mul_1_r in H. exact H.
Qed.

Lemma of_Z_neg (p : positive) :
  Zpos p < 2 ^ 53 → of_Z (Zneg p) = S754_finite true (mantissa53 p) (exponent53 p).
Proof.
  intros Hp. unfold of_Z, binary_normalize.
  pose proof (binary_round_exact true p 0 (Z.le_refl 0) Hp) as H.
  rewrite Z.pow_0_r, Z.mul_1_r in H. exact H.
Qed.

(** Normalising [z * 2^k * 2^-k] gives the Number of the whole number [z]. *)
Lemma binary_normalize_exact (z k : Z) :
  0 ≤ k → Z.abs z < 2 ^ 53 →
  binary_normalize prec emax (z * 2 ^ k) (- k) false = of_Z z.
Proof.
  intros Hk Hz. assert (0 < 2 ^ k) as Hpk by (by apply Z.pow_pos_nonneg).
  destruct z as [|p|p].
  - done.
  - rewrite of_Z_pos by done. unfold mantissa53, exponent53.
    destruct (Z.pos p * 2 ^ k) as [|q|q] eqn:Hq; [lia| |lia].
    simpl binary_normalize. rewrite <- (binary_round_exact false p k) by done.
    by rewrite Hq.
  - rewrite of_Z_neg by done. unfold mantissa53, exponent53.
    destruct (Z.neg p * 2 ^ k) as [|q|q] eqn:Hq; [lia|lia|].
    simpl binary_normalize. rewrite <- (binary_round_exact true p k) by done.
    replace (Z.pos p * 2 ^ k) with (Zpos q) by lia. done.
Qed.

Lemma shl_align_value (m : positive) (e e' : Z) :
  e' ≤ e → Zpos (shl_align m e e').1 = Zpos m * 2 ^ (e - e').
Proof.
  intros He. unfold shl_align. destruct (e' - e) as [|d|d] eqn:Hd; simpl.
  - replace (e - e') with 0 by lia. lia.
  - lia.
  - rewrite pos_iter_xO. f_equal. f_equal. lia.
Qed.

Ltac add_exact_finite p q :=
  rewrite ?of_Z_pos, ?of_Z_neg by done;
  unfold add, SFadd;
  set (ez := Z.min (exponent53 p) (exponent53 q));
  pose proof (digits_le_53 p ltac:(lia));
  pose proof (digits_le_53 q ltac:(lia));
  assert (ez ≤ 0) as Hez by (unfold ez, exponent53; lia);
  rewrite !shl_align_value, !mantissa53_value by (unfold ez; lia);
  rewrite <- !Z.mul_assoc, <- !Z.pow_add_r by (unfold ez, exponent53 in *; lia);
  replace (- exponent53 p + (exponent53 p - ez)) with (- ez) by lia;
  replace (- exponent53 q + (exponent53 q - ez)) with (- ez) by lia;
  simpl cond_Zopp;
  rewrite <- (binary_normalize_exact _ (- ez)) by lia;
  rewrite Z.opp_involutive; f_equal; lia.

(** The sum of two whole numbers is exact when the three of them are below
    2^53 in magnitude. *)
Lemma add_exact (a b : Z) :
  Z.abs a < 2 ^ 53 → Z.abs b < 2 ^ 53 → Z.abs (a + b) < 2 ^ 53 →
  add (of_Z a) (of_Z b) = of_Z (a + b).
Proof.
  intros Ha Hb Hab. destruct a as [|p|p].
  - change (0 + b) with b.
    destruct b as [|q|q]; rewrite ?of_Z_pos, ?of_Z_neg by done; done.
  - destruct b as [|q|q].
    + rewrite Z.add_0_r, of_Z_pos by done. done.
    + add_exact_finite p q.
    + add_exact_finite p q.
  - destruct b as [|q|q].
    + rewrite Z.add_0_r, of_Z_neg by done. done.
    + add_exact_finite p q.
    + add_exact_finite p q.
Qed.

(** ** The summary accumulator *)

Section Accumulator.

Implicit Types (o : object) (k : string) (v : propval).

Lemma get_own_None o k : get_own o k = None ↔ k ∉ o.*1.
Proof.
  induction o as [|[k' v'] o IH]; csimpl.
  - split; [intros _; apply not_elem_of_nil | done].
  - rewrite not_elem_of_cons, <- IH.
    destruct (String.eqb_spec k' k) as [->|Hne].
    + split; [done | by intros [? _]].
    + split; [intros H; split; [congruence | done] | by intros [_ ?]].
Qed.

Lemma get_own_Some o k v : get_own o k = Some v → (k, v) ∈ o.
Proof.
  induction o as [|[k' v'] o IH]; csimpl; [done|].
  destruct (String.eqb_spec k' k) as [->|Hne].
  - intros [= ->]. apply list_elem_of_here.
  - intros H. apply list_elem_of_further. auto.
Qed.

Lemma get_own_elem_of o k v : NoDup o.*1 → (k, v) ∈ o → get_own o k = Some v.
Proof.
  induction o as [|[k' v'] o IH]; csimpl; [by intros _ ?%elem_of_nil|].
  intros [Hk' Hnd]%NoDup_cons [[= -> ->] | Hin]%elem_of_cons.
  - by rewrite String.eqb_refl.
  - destruct (String.eqb_spec k' k) as [->|Hne]; [|auto].
    destruct Hk'. by apply (list_elem_of_fmap_2 fst) in Hin.
Qed.

Lemma keys_replace_own o k v : (replace_own o k v).*1 = o.*1.
Proof.
  induction o as [|[k' v'] o IH]; csimpl; [done|].
  destruct (k' =? k)%string; csimpl; congruence.
Qed.

Lemma keys_insert_index o i k v : (insert_index o i k v).*1 = insert_key o.*1 i k.
Proof.
  induction o as [|[k' v'] o IH]; csimpl; [done|].
  destruct (array_index k') as [j|]; [|done].
  destruct (i <? j); csimpl; congruence.
Qed.

Lemma keys_set o k v : (set o k v).*1 = key_step o.*1 k.
Proof.
  unfold set, key_step. destruct (get_own o k) as [v'|] eqn:Hget.
  - rewrite keys_replace_own. apply get_own_Some in Hget.
    apply (list_elem_of_fmap_2 fst) in Hget. by rewrite decide_True.
  - apply get_own_None in Hget. rewrite decide_False by done.
    destruct (k =? "__proto__")%string; [done|].
    destruct (array_index k); [apply keys_insert_index | by rewrite fmap_app].
Qed.

Lemma get_own_replace_own o k v k' :
  get_own (replace_own o k v) k'
  = if decide (k = k') then (λ _, v) <$> get_own o k else get_own o k'.
Proof.
  induction o as [|[k0 v0] o IH]; csimpl; [by case_decide|].
  destruct (String.eqb_spec k0 k) as [->|Hne]; simpl.
  - destruct (String.eqb_spec k k') as [->|Hne'].
    + by rewrite decide_True.
    + by rewrite decide_False.
  - rewrite IH. destruct (String.eqb_spec k0 k') as [->|Hne'].
    + by rewrite decide_False.
    + done.
Qed.

Lemma get_own_insert_index o i k v k' :
  get_own o k = None →
  get_own (insert_index o i k v) k'
  = if decide (k = k') then Some v else get_own o k'.
Proof.
  induction o as [|[k0 v0] o IH]; csimpl.
  - intros _. destruct (String.eqb_spec k k'); by case_decide.
  - destruct (String.eqb_spec k0 k) as [->|Hne]; [done|]. intros Hk.
    assert (get_own ((k, v) :: (k0, v0) :: o) k'
            = if decide (k = k') then Some v
              else if (k0 =? k')%string then Some v0 else get_own o k') as Hhere.
    { simpl. destruct (String.eqb_spec k k'); by case_decide. }
    destruct (array_index k0) as [j|]; [|exact Hhere].
    destruct (i <? j); [exact Hhere|]. simpl. rewrite IH by done.
    destruct (String.eqb_spec k0 k') as [->|Hne']; [|done].
    by rewrite decide_False.
Qed.

Lemma get_own_app o k v k' :
  get_own o k = None →
  get_own (o ++ [(k, v)]) k'
  = if decide (k = k') then Some v else get_own o k'.
Proof.
  induction o as [|[k0 v0] o IH]; csimpl.
  - intros _. destruct (String.eqb_spec k k'); by case_decide.
  - destruct (String.eqb_spec k0 k) as [->|Hne]; [done|]. intros Hk.
    rewrite IH by done.
    destruct (String.eqb_spec k0 k') as [->|Hne']; [|done].
    by rewrite decide_False.
Qed.

(** Reading back what [set] wrote, for a key other than [__proto__]. *)
Lemma get_own_set o k v k' :
  k ≠ "__proto__" →
  get_own (set o k v) k' = if decide (k = k') then Some v else get_own o k'.
Proof.
  intros Hproto. unfold set. destruct (get_own o k) as [v0|] eqn:Hget.
  - rewrite get_own_replace_own, Hget. done.
  - destruct (String.eqb_spec k "__proto__") as [|_]; [done|].
    destruct (array_index k); [by apply get_own_insert_index | by apply get_own_app].
Qed.

Lemma get_own_set_ne o k v k' : k ≠ k' → get_own (set o k v) k' = get_own o k'.
Proof.
  intros Hne. unfold set. destruct (get_own o k) as [v0|] eqn:Hget.
  - rewrite get_own_replace_own. by rewrite decide_False.
  - destruct (k =? "__proto__")%string; [done|].
    destruct (array_index k).
    + rewrite get_own_insert_index by done. by rewrite decide_False.
    + rewrite get_own_app by done. by rewrite decide_False.
Qed.

End Accumulator.

(** ** The totals of the summary *)

Section Totals.

Implicit Types (l : list expense) (acc : object) (c : string).

Lemma inherited_proto c : inherited c = false → c ≠ "__proto__".
Proof. by intros H ->. Qed.

Lemma get_not_inherited acc c : inherited c = false → get acc c = get_own acc c.
Proof. intros H. unfold get. rewrite H. by destruct (get_own acc c). Qed.

Lemma summary_step_value acc (e : expense) :
  summary_step acc e
  = set acc (Expense.category e)
        (step_value (get acc (Expense.category e)) (Expense.amount e)).
Proof. done. Qed.

Lemma get_own_summary_step acc (e : expense) c :
  inherited c = false →
  get_own (summary_step acc e) c
  = if decide (Expense.category e = c)
    then Some (step_value (get_own acc c) (Expense.amount e))
    else get_own acc c.
Proof.
  intros Hc. rewrite summary_step_value. case_decide as Heq.
  - subst c. rewrite get_own_set by (by apply inherited_proto).
    by rewrite decide_True, get_not_inherited.
  - by apply get_own_set_ne.
Qed.

Lemma amounts_of_cons (e : expense) l c :
  amounts_of c (e :: l)
  = if decide (Expense.category e = c)
    then Expense.amount e :: amounts_of c l else amounts_of c l.
Proof. unfold amounts_of. rewrite filter_cons. by case_decide. Qed.

(** The own property of a key that is no member of [Object.prototype],
    from the amounts of the expenses that carry it. *)
Lemma get_own_fold l acc c :
  inherited c = false →
  get_own (fold_left summary_step l acc) c
  = fold_left (λ read a, Some (step_value read a)) (amounts_of c l) (get_own acc c).
Proof.
  intros Hc. revert acc. induction l as [|e l IH]; intros acc; [done|].
  simpl. rewrite IH, get_own_summary_step, amounts_of_cons by done.
  by case_decide.
Qed.

Lemma fold_step_value_number (amounts : list number) (t : number) :
  fold_left (λ read a, Some (step_value read a)) amounts (Some (PNum t))
  = Some (PNum (fold_left (λ t a, add (if truthy t then t else zero) a) amounts t)).
Proof.
  revert t. induction amounts as [|a amounts IH]; intros t; [done|].
  simpl. by rewrite IH.
Qed.

Lemma fold_step_value_start (amounts : list number) :
  fold_left (λ read a, Some (step_value read a)) amounts None
  = match amounts with
    | [] => None
    | _ => Some (PNum (running_total amounts))
    end.
Proof.
  destruct amounts as [|a amounts]; [done|].
  simpl. by rewrite fold_step_value_number.
Qed.

Lemma running_total_from (amounts : list number) (t : number) :
  is_nan t = false → Forall (λ a, plain a = true) amounts →
  fold_left (λ t a, add (if truthy t then t else zero) a) amounts t
  = fold_left add amounts t.
Proof.
  revert t. induction amounts as [|a amounts IH]; intros t Ht Hpl; [done|].
  apply Forall_cons in Hpl as [Ha Hpl]. simpl.
  rewrite add_or_zero by done. apply IH; [by apply add_not_nan | done].
Qed.

(** On finite amounts other than [-0] the running total is the plain
    left-to-right sum. *)
Lemma running_total_sum (amounts : list number) :
  Forall (λ a, plain a = true) amounts → running_total amounts = float_sum amounts.
Proof. intros H. by apply running_total_from. Qed.

Lemma grandTotal_sum l : grandTotal l = float_sum (Expense.amount <$> l).
Proof.
  unfold grandTotal, float_sum. generalize zero.
  induction l as [|e l IH]; intros t; [done|]. csimpl. apply IH.
Qed.

End Totals.

(** ** The order of the summary rows *)

Section Order.

Implicit Types (ks I S : list string) (k c : string).

Lemma keys_fold (l : list expense) (acc : object) :
  (fold_left summary_step l acc).*1
  = fold_left key_step (Expense.category <$> l) acc.*1.
Proof.
  revert acc. induction l as [|e l IH]; intros acc; [done|].
  csimpl. by rewrite IH, summary_step_value, keys_set.
Qed.

Lemma is_index_value k i : array_index k = Some i → index_value k = i.
Proof. unfold index_value. by intros ->. Qed.

(** Among keys that list the array indices first, a new index is inserted
    among the indices. *)
Lemma insert_key_indices_first I S k i :
  Forall (λ k', is_index k' = true) I →
  Forall (λ k', is_index k' = false) S →
  array_index k = Some i →
  insert_key (I ++ S) i k = insert_sorted k I ++ S.
Proof.
  intros HI HS Hk. induction HI as [|k' I Hk' HI IH]; simpl.
  - destruct HS as [|k' S Hk' HS]; [done|]. simpl.
    unfold is_index in Hk'. by destruct (array_index k').
  - unfold is_index in Hk'. rewrite (is_index_value k i Hk).
    destruct (array_index k') as [j|] eqn:Hj; [|done].
    rewrite (is_index_value k' j Hj).
    destruct (i <? j); [done|]. by rewrite IH.
Qed.

Lemma elem_of_insert_sorted k I x : x ∈ insert_sorted k I ↔ x = k ∨ x ∈ I.
Proof.
  induction I as [|k' I IH]; simpl.
  - rewrite list_elem_of_singleton, elem_of_nil. tauto.
  - destruct (_ <? _); rewrite !elem_of_cons; [tauto|]. rewrite IH. tauto.
Qed.

Lemma Forall_insert_sorted (P : string → Prop) k I :
  P k → Forall P I → Forall P (insert_sorted k I).
Proof.
  rewrite !Forall_forall. intros Hk HI x [->|Hx]%elem_of_insert_sorted; auto.
Qed.

Lemma first_seen_filter (Q : string → Prop) `{!∀ x, Decision (Q x)} (l : list string) :
  first_seen (filter Q l) = filter Q (first_seen l).
Proof.
  induction l as [|c l IH]; [done|].
  rewrite filter_cons. simpl. destruct (decide (Q c)) as [Hc|Hc].
  - rewrite filter_cons_True by done. simpl. rewrite IH.
    f_equal. rewrite !list_filter_filter. apply list_filter_iff. tauto.
  - rewrite filter_cons_False by done. rewrite IH.
    rewrite list_filter_filter. apply list_filter_iff.
    intros x. split; [|tauto]. intros Hx. split; [done|]. by intros ->.
Qed.

Lemma fold_key_step_order (cats : list string) I S :
  Forall (λ k, is_index k = true) I →
  Forall (λ k, is_index k = false) S →
  Forall (λ c, c ≠ "__proto__") cats →
  fold_left key_step cats (I ++ S)
  = fold_left (λ acc k, insert_sorted k acc)
      (filter (λ k, is_index k = true)
         (first_seen (filter (λ c, c ∉ I ++ S) cats))) I
    ++ (S ++ filter (λ k, is_index k = false)
                (first_seen (filter (λ c, c ∉ I ++ S) cats))).
Proof.
  intros HI HS Hcats. revert I S HI HS.
  induction Hcats as [|c cats Hc Hcats IH]; intros I S HI HS.
  { simpl. by rewrite app_nil_r. }
  simpl. unfold key_step at 2. rewrite filter_cons.
  destruct (decide (c ∈ I ++ S)) as [Hin|Hnew].
  { rewrite decide_False by tauto. by apply IH. }
  rewrite decide_True by done.
  destruct (String.eqb_spec c "__proto__") as [|_]; [done|].
  simpl. rewrite <- first_seen_filter, list_filter_filter.
  destruct (array_index c) as [i|] eqn:Hi.
  - assert (is_index c = true) as Hidx by (unfold is_index; by rewrite Hi).
    rewrite insert_key_indices_first by done.
    rewrite IH by (by try apply Forall_insert_sorted).
    rewrite filter_cons_True, filter_cons_False by (done || congruence).
    simpl.
    assert (filter (λ c0, c0 ∉ insert_sorted c I ++ S) cats
            = filter (λ x, x ≠ c ∧ x ∉ I ++ S) cats) as ->; [|done].
    apply list_filter_iff. intros x.
    rewrite !elem_of_app, elem_of_insert_sorted. tauto.
  - assert (is_index c = false) as Hidx by (unfold is_index; by rewrite Hi).
    assert (Forall (λ k, is_index k = false) (S ++ [c])) as HS'
      by (apply Forall_app_2; [done | by apply Forall_singleton]).
    rewrite <- (assoc_L (++)). rewrite (IH I (S ++ [c])) by done.
    rewrite filter_cons_False, filter_cons_True by (done || congruence).
    rewrite <- !(assoc_L (++)). simpl.
    assert (filter (λ c0, c0 ∉ I ++ S ++ [c]) cats
            = filter (λ x, x ≠ c ∧ x ∉ I ++ S) cats) as ->; [|done].
    apply list_filter_iff. intros x.
    rewrite !elem_of_app, list_elem_of_singleton. tauto.
Qed.

(** The keys of the summary object, from the categories of the expenses. *)
Lemma summary_keys (l : list expense) :
  Forall (λ e, inherited (Expense.category e) = false) l →
  (summary_object l).*1 = property_order (first_seen (Expense.category <$> l)).
Proof.
  intros Hl. unfold summary_object. rewrite keys_fold.
  rewrite (fold_key_step_order _ [] []); try done.
  - unfold property_order, sort_indices. cbn [app].
    assert (filter (λ c, c ∉ @nil string) (Expense.category <$> l)
            = Expense.category <$> l) as ->; [|done].
    induction (Expense.category <$> l) as [|c cs IH]; [done|].
    rewrite filter_cons_True by apply not_elem_of_nil. by rewrite IH.
  - apply Forall_fmap. eapply Forall_impl; [exact Hl|].
    intros e He. by apply inherited_proto.
Qed.

End Order.

(** ** What the property order is *)

Section PropertyOrder.

Implicit Types (ks I : list string) (k c : string).

Lemma insert_sorted_perm k I : insert_sorted k I ≡ₚ k :: I.
Proof.
  induction I as [|k' I IH]; simpl; [done|].
  destruct (_ <? _); [done|]. rewrite IH. apply Permutation_swap.
Qed.

Lemma insert_sorted_sorted k I :
  StronglySorted index_le I → StronglySorted index_le (insert_sorted k I).
Proof.
  induction 1 as [|k' I HI IH Hk']; simpl.
  - repeat constructor.
  - destruct (Z.ltb_spec (index_value k) (index_value k')) as [Hlt|Hge].
    + constructor; [by constructor|]. constructor; [unfold index_le; lia|].
      eapply Forall_impl; [exact Hk'|]. unfold index_le. intros x Hx. lia.
    + constructor; [done|]. apply Forall_forall.
      intros x [->|Hx]%elem_of_insert_sorted; [done|].
      by eapply Forall_forall in Hk'.
Qed.

Lemma fold_insert_sorted (l I : list string) :
  StronglySorted index_le I →
  StronglySorted index_le (fold_left (λ acc k, insert_sorted k acc) l I)
  ∧ fold_left (λ acc k, insert_sorted k acc) l I ≡ₚ l ++ I.
Proof.
  revert I. induction l as [|k l IH]; intros I HI; simpl; [done|].
  destruct (IH (insert_sorted k I)) as [Hs Hp]; [by apply insert_sorted_sorted|].
  split; [done|]. rewrite Hp, insert_sorted_perm. by rewrite Permutation_middle.
Qed.

(** The array indices come out in ascending numeric order. *)
Lemma sort_indices_sorted (l : list string) : StronglySorted index_le (sort_indices l).
Proof. apply fold_insert_sorted. constructor. Qed.

Lemma sort_indices_perm (l : list string) : sort_indices l ≡ₚ l.
Proof.
  unfold sort_indices.
  rewrite (proj2 (fold_insert_sorted l [] ltac:(constructor))). by rewrite app_nil_r.
Qed.

(** The property order lists the same keys. *)
Lemma property_order_perm (l : list string) : property_order l ≡ₚ l.
Proof.
  unfold property_order.
  assert (filter (λ k, is_index k = false) l
          = filter (λ k, ¬ is_index k = true) l) as ->.
  { apply list_filter_iff. intros k. destruct (is_index k); split; congruence. }
  rewrite sort_indices_perm. apply filter_app_complement.
Qed.

(** Without array indices among the keys it is the order of creation. *)
Lemma property_order_no_index (l : list string) :
  Forall (λ k, is_index k = false) l → property_order l = l.
Proof.
  intros Hl. unfold property_order.
  assert (filter (λ k, is_index k = true) l = []) as ->.
  { induction Hl as [|k l Hk Hl IH]; [done|].
    rewrite filter_cons_False by congruence. done. }
  assert (filter (λ k, is_index k = false) l = l) as ->; [|done].
  induction Hl as [|k l Hk Hl IH]; [done|].
  rewrite filter_cons_True by done. by rewrite IH.
Qed.

Lemma elem_of_first_seen (l : list string) c : c ∈ first_seen l ↔ c ∈ l.
Proof.
  induction l as [|c' l IH]; simpl; [done|].
  rewrite !elem_of_cons, list_elem_of_filter, IH.
  destruct (decide (c = c')); tauto.
Qed.

Lemma NoDup_first_seen (l : list string) : NoDup (first_seen l).
Proof.
  induction l as [|c l IH]; simpl; constructor.
  - rewrite list_elem_of_filter. tauto.
  - by apply NoDup_filter.
Qed.

End PropertyOrder.

(** ** The rows of the summary *)

Section Rows.

Implicit Types (l : list expense) (c : string).

Lemma summary_keys_NoDup l :
  Forall (λ e, inherited (Expense.category e) = false) l →
  NoDup (summary_object l).*1.
Proof.
  intros Hl. rewrite summary_keys, property_order_perm by done.
  apply NoDup_first_seen.
Qed.

Lemma summary_keys_elem_of l c :
  Forall (λ e, inherited (Expense.category e) = false) l →
  c ∈ (summary_object l).*1 ↔ c ∈ Expense.category <$> l.
Proof.
  intros Hl. rewrite summary_keys, property_order_perm by done.
  apply elem_of_first_seen.
Qed.

(** Each row holds the running total of the amounts of its category. *)
Lemma summary_rows l :
  Forall (λ e, inherited (Expense.category e) = false) l →
  summaryArray l
  = (λ c, Row.mk c (PNum (running_total (amounts_of c l))))
    <$> (summary_object l).*1.
Proof.
  intros Hl. unfold summaryArray. rewrite <- list_fmap_compose.
  apply Forall_fmap_ext_1, Forall_forall. intros [k v] Hkv. simpl.
  assert (k ∈ (summary_object l).*1) as Hk1
    by (by apply (list_elem_of_fmap_2 fst) in Hkv).
  assert (inherited k = false) as Hk.
  { apply summary_keys_elem_of in Hk1; [|done].
    apply list_elem_of_fmap in Hk1 as (e & -> & He).
    by eapply Forall_forall in Hl. }
  apply get_own_elem_of in Hkv; [|by apply summary_keys_NoDup].
  unfold summary_object in Hkv.
  rewrite get_own_fold, fold_step_value_start in Hkv by done.
  destruct (amounts_of k l); [done|]. by injection Hkv as <-.
Qed.

Lemma bind_ext_elem_of {A B} (f g : A → list B) (xs : list A) :
  (∀ x, x ∈ xs → f x = g x) → xs ≫= f = xs ≫= g.
Proof.
  induction xs as [|x xs IH]; intros H; [done|].
  rewrite !bind_cons, H, IH; [done| |apply list_elem_of_here].
  intros y Hy. apply H. by apply list_elem_of_further.
Qed.

Lemma fmap_bind_list {A B C} (f : B → C) (g : A → list B) (xs : list A) :
  f <$> (xs ≫= g) = xs ≫= (λ x, f <$> g x).
Proof.
  induction xs as [|x xs IH]; [done|].
  by rewrite !bind_cons, fmap_app, IH.
Qed.

(** Grouping by the keys of a duplicate-free list that holds every category
    rearranges the expenses. *)
Lemma group_by_category_perm (ks : list string) l :
  NoDup ks → (∀ e, e ∈ l → Expense.category e ∈ ks) →
  ks ≫= (λ c, filter (λ e, Expense.category e = c) l) ≡ₚ l.
Proof.
  intros Hnd. induction l as [|e l IH]; intros Hks.
  - clear. induction ks as [|k ks IH]; [done|]. by rewrite bind_cons, IH.
  - destruct (list_elem_of_split ks (Expense.category e)) as (k1 & k2 & ->);
      [apply Hks, list_elem_of_here|].
    apply NoDup_app in Hnd as Hnd'. destruct Hnd' as (_ & Hk1 & [Hk2 _]%NoDup_cons).
    rewrite bind_app, bind_cons, filter_cons_True by done.
    rewrite (bind_ext_elem_of _ (λ c, filter (λ e', Expense.category e' = c) l) k1).
    2:{ intros c Hc. apply filter_cons_False. intros Heq.
        apply (Hk1 c Hc). rewrite <- Heq. apply list_elem_of_here. }
    rewrite (bind_ext_elem_of _ (λ c, filter (λ e', Expense.category e' = c) l) k2).
    2:{ intros c Hc. apply filter_cons_False. intros Heq.
        apply Hk2. by rewrite Heq. }
    rewrite <- app_comm_cons, <- Permutation_middle. constructor.
    trans ((k1 ++ Expense.category e :: k2)
             ≫= (λ c, filter (λ e', Expense.category e' = c) l)).
    { by rewrite bind_app, bind_cons. }
    apply IH. intros e' He'. apply Hks. by apply list_elem_of_further.
Qed.

End Rows.

(** ** The summary *)

Lemma amounts_of_plain (l : list expense) (c : string) :
  Forall (λ e, plain (Expense.amount e) = true) l →
  Forall (λ a, plain a = true) (amounts_of c l).
Proof.
  intros Hl. unfold amounts_of. apply Forall_fmap, Forall_forall.
  intros e [_ He]%list_elem_of_filter. by eapply Forall_forall in Hl.
Qed.

Lemma row_categories (f : string → propval) (ks : list string) :
  Row.category <$> ((λ c, Row.mk c (f c)) <$> ks) = ks.
Proof.
  rewrite <- list_fmap_compose.
  by induction ks as [|k ks IH]; csimpl; f_equal.
Qed.

(** With finite amounts other than [-0], each row holds the plain sum of the
    amounts of its category, and the rows come in property order. *)
Lemma summary_rows_sum (l : list expense) :
  Forall (λ e, inherited (Expense.category e) = false) l →
  Forall (λ e, plain (Expense.amount e) = true) l →
  summaryArray l
  = (λ c, Row.mk c (PNum (float_sum (amounts_of c l))))
    <$> property_order (first_seen (Expense.category <$> l)).
Proof.
  intros Hinh Hplain. rewrite summary_rows, summary_keys by done.
  apply Forall_fmap_ext_1, Forall_forall. intros c _.
  by rewrite running_total_sum by (by apply amounts_of_plain).
Qed.

Lemma magnitude_nonneg xs : 0 ≤ magnitude xs.
Proof. induction xs; simpl; lia. Qed.

Lemma whole_sum_magnitude xs : Z.abs (whole_sum xs) ≤ magnitude xs.
Proof. induction xs; simpl; lia. Qed.

Lemma magnitude_app xs ys : magnitude (xs ++ ys) = magnitude xs + magnitude ys.
Proof. induction xs; simpl; lia. Qed.

Lemma whole_sum_app xs ys : whole_sum (xs ++ ys) = whole_sum xs + whole_sum ys.
Proof. induction xs; simpl; lia. Qed.

#[global] Instance magnitude_perm : Proper ((≡ₚ) ==> (=)) magnitude.
Proof. induction 1; simpl; lia. Qed.

#[global] Instance whole_sum_perm : Proper ((≡ₚ) ==> (=)) whole_sum.
Proof. induction 1; simpl; lia. Qed.

Lemma of_Z_plain (z : Z) : Z.abs z < 2 ^ 53 → plain (of_Z z) = true.
Proof.
  intros Hz. destruct z as [|p|p]; [done| |].
  - by rewrite of_Z_pos by done.
  - by rewrite of_Z_neg by done.
Qed.

(** The running sum of whole numbers is the Number of their sum, as long as
    their magnitudes stay below 2^53 together. *)
Lemma fold_add_whole (xs : list number) (t : Z) :
  Forall whole xs → Z.abs t + magnitude xs < 2 ^ 53 →
  fold_left add xs (of_Z t) = of_Z (t + whole_sum xs).
Proof.
  intros Hxs. revert t.
  induction Hxs as [|x xs Hx Hxs IH]; intros t Ht; simpl in *.
  - by rewrite Z.add_0_r.
  - pose proof (magnitude_nonneg xs). pose proof (whole_sum_magnitude xs).
    unfold whole in Hx. rewrite Hx at 1.
    rewrite add_exact by lia. rewrite IH by lia. f_equal. lia.
Qed.

Lemma sum_whole (xs : list number) :
  Forall whole xs → magnitude xs < 2 ^ 53 → float_sum xs = of_Z (whole_sum xs).
Proof.
  intros Hxs Hm. unfold float_sum. change zero with (of_Z 0).
  rewrite fold_add_whole; [done | done | simpl; lia].
Qed.

Lemma fold_add_groups {A} (f : A → list number) (ks : list A) (t : Z) :
  Forall (λ k, Forall whole (f k)) ks →
  Z.abs t + magnitude (ks ≫= f) < 2 ^ 53 →
  fold_left (λ a k, add a (float_sum (f k))) ks (of_Z t)
  = of_Z (t + whole_sum (ks ≫= f)).
Proof.
  intros Hg. revert t. induction Hg as [|k ks Hk Hks IH]; intros t Ht.
  - simpl. by rewrite Z.add_0_r.
  - rewrite bind_cons, magnitude_app in Ht. rewrite bind_cons, whole_sum_app.
    pose proof (magnitude_nonneg (f k)). pose proof (magnitude_nonneg (ks ≫= f)).
    pose proof (whole_sum_magnitude (f k)).
    simpl fold_left. rewrite sum_whole by (done || lia). rewrite add_exact by lia.
    rewrite IH by lia. f_equal. lia.
Qed.

Lemma sum_of_totals_from_rows (f : string → number) (ks : list string) (acc : number) :
  sum_of_totals_from acc ((λ c, Row.mk c (PNum (f c))) <$> ks)
  = Some (fold_left (λ a c, add a (f c)) ks acc).
Proof.
  revert acc. induction ks as [|k ks IH]; intros acc; [done|].
  csimpl. by rewrite IH.
Qed.

Lemma magnitude_elem_of (x : number) (xs : list number) :
  x ∈ xs → Z.abs (to_Z x) ≤ magnitude xs.
Proof.
  induction 1 as [x xs|x y xs _ IH]; simpl.
  - pose proof (magnitude_nonneg xs). lia.
  - lia.
Qed.

Lemma whole_plain (x : number) : whole x → Z.abs (to_Z x) < 2 ^ 53 → plain x = true.
Proof. intros Hx H. unfold whole in Hx. rewrite Hx. by apply of_Z_plain. Qed.

(** With whole-number amounts whose magnitudes stay below 2^53 together, the
    per-category totals add up to the grand total. *)
Lemma whole_totals_add_up (l : list expense) :
  Forall (λ e, inherited (Expense.category e) = false) l →
  Forall (λ e, whole (Expense.amount e)) l →
  magnitude (Expense.amount <$> l) < 2 ^ 53 →
  sum_of_totals (summaryArray l) = Some (grandTotal l).
Proof.
  intros Hinh Hwhole Hmag.
  assert (Forall whole (Expense.amount <$> l)) as Hw by (by apply Forall_fmap).
  assert (Forall (λ e, plain (Expense.amount e) = true) l) as Hplain.
  { apply Forall_forall. intros e He. apply whole_plain.
    - by eapply Forall_forall in Hwhole.
    - eapply Z.le_lt_trans; [|exact Hmag].
      by apply magnitude_elem_of, list_elem_of_fmap_2. }
  set (ks := property_order (first_seen (Expense.category <$> l))).
  assert (ks ≫= (λ c, amounts_of c l) ≡ₚ Expense.amount <$> l) as Hperm.
  { unfold amounts_of. rewrite <- fmap_bind_list. f_equiv.
    apply group_by_category_perm.
    - unfold ks. rewrite property_order_perm. apply NoDup_first_seen.
    - intros e He. unfold ks. rewrite property_order_perm, elem_of_first_seen.
      by apply list_elem_of_fmap_2. }
  rewrite summary_rows_sum by done. fold ks.
  unfold sum_of_totals. rewrite sum_of_totals_from_rows.
  change zero with (of_Z 0). rewrite fold_add_groups.
  - rewrite Hperm, grandTotal_sum, sum_whole by done. done.
  - apply Forall_forall. intros c _. unfold amounts_of.
    apply Forall_fmap, Forall_forall. intros e [_ He]%list_elem_of_filter.
    by eapply Forall_forall in Hwhole.
  - rewrite Hperm. simpl. lia.
Qed.

(** C2, as amended. For expenses whose categories name no member of
    [Object.prototype] and whose amounts are finite Numbers other than [-0],
    the summary groups by the exact category string, as stored and without
    case normalization: it has one row for each distinct category string, and
    the total of the row is the left-to-right floating-point sum of the
    amounts of the expenses that carry exactly that string, so that two
    categories that differ in case only have a row each. The rows come in
    the order in which the accumulator object lists its keys: first the
    categories that are array indices (canonical decimal numerals below
    2^32 - 1) in ascending numeric order, then the other categories in the
    order in which they are first met. When no category is such a numeral
    that is the order of first encounter. *)
Theorem summary_groups_by_exact_category (l : list expense) :
  Forall (λ e, inherited (Expense.category e) = false) l →
  Forall (λ e, plain (Expense.amount e) = true) l →
  summaryArray l
  = (λ c, Row.mk c (PNum (float_sum (amounts_of c l))))
    <$> property_order (first_seen (Expense.category <$> l))
  ∧ (∃ indices others,
       Row.category <$> summaryArray l = indices ++ others
       ∧ StronglySorted index_le indices
       ∧ indices ≡ₚ filter (λ k, is_index k = true)
                      (first_seen (Expense.category <$> l))
       ∧ others = filter (λ k, is_index k = false)
                    (first_seen (Expense.category <$> l)))
  ∧ (Forall (λ e, is_index (Expense.category e) = false) l →
     Row.category <$> summaryArray l = first_seen (Expense.category <$> l))
  ∧ NoDup (Row.category <$> summaryArray l)
  ∧ (∀ c, c ∈ Expense.category <$> l →
          Row.mk c (PNum (float_sum (amounts_of c l))) ∈ summaryArray l).
Proof.
  intros Hinh Hplain. pose proof (summary_rows_sum l Hinh Hplain) as Hrows.
  split; [exact Hrows|]. rewrite Hrows, row_categories. split_and!.
  - eexists _, _. split; [reflexivity|].
    split_and!; [apply sort_indices_sorted | apply sort_indices_perm | done].
  - intros Hidx. apply property_order_no_index, Forall_forall.
    intros c (e & -> & He)%elem_of_first_seen%list_elem_of_fmap.
    by eapply Forall_forall in Hidx.
  - rewrite property_order_perm. apply NoDup_first_seen.
  - intros c Hc.
    apply (list_elem_of_fmap_2 (λ c, Row.mk c (PNum (float_sum (amounts_of c l))))).
    by rewrite property_order_perm, elem_of_first_seen.
Qed.

Lemma summary_groups_by_exact_category_witness :
  let l := expenses Sample.mixed in
  Forall (λ e, inherited (Expense.category e) = false) l
  ∧ Forall (λ e, plain (Expense.amount e) = true) l
  ∧ summaryArray l
    = [ Row.mk "2024" (PNum (numeral "5"));
        Row.mk "Food" (PNum (numeral "80"));
        Row.mk "food" (PNum (numeral "30")) ]
  ∧ summaryArray l
    = (λ c, Row.mk c (PNum (float_sum (amounts_of c l))))
      <$> property_order (first_seen (Expense.category <$> l)).
Proof.
  assert (Forall (λ e, inherited (Expense.category e) = false)
            (expenses Sample.mixed)) as H1 by (by repeat constructor).
  assert (Forall (λ e, plain (Expense.amount e) = true)
            (expenses Sample.mixed)) as H2 by (by repeat constructor).
  split_and!; [exact H1 | exact H2 | by vm_compute |].
  exact (proj1 (summary_groups_by_exact_category _ H1 H2)).
Defined.

(** C2, as stated, fails: a category that is a numeral is listed before a
    category that was met earlier. *)
Lemma summary_lists_a_numeral_category_first :
  first_seen (Expense.category <$> expenses Sample.by_year) = ["Food"; "2024"]
  ∧ get_summary Sample.by_year
    = Ok 200 ([ Row.mk "2024" (PNum (numeral "5"));
                Row.mk "Food" (PNum (numeral "10")) ],
              numeral "15").
Proof. by vm_compute. Qed.

(** C1, as amended. The grand total of the summary is the left-to-right
    floating-point sum of the amounts of the whole collection, and an empty
    collection gives no row and the grand total 0. When no category names a
    member of [Object.prototype], the rows have distinct categories, the
    total of a row is the running total of the amounts of the expenses of
    its category, and the rows together take in the amount of every expense
    once: the per-category totals are floating-point sums over a regrouping
    of what the grand total sums. They add up to the grand total when the
    sums are exact, as they are when every amount is a whole number and the
    magnitudes of the amounts add up to less than 2^53; and when all the
    expenses carry one category and their amounts are finite Numbers other
    than [-0], the total of the one row is the grand total. *)
Theorem summary_totals_regroup_the_amounts (st : state) :
  ∃ rows g,
    get_summary st = Ok 200 (rows, g)
    ∧ g = float_sum (Expense.amount <$> expenses st)
    ∧ (expenses st = [] → rows = [] ∧ g = zero)
    ∧ (Forall (λ e, inherited (Expense.category e) = false) (expenses st) →
       NoDup (Row.category <$> rows)
       ∧ Forall (λ r, Row.total r
                      = PNum (running_total
                                (amounts_of (Row.category r) (expenses st)))) rows
       ∧ (Row.category <$> rows) ≫= (λ c, amounts_of c (expenses st))
         ≡ₚ Expense.amount <$> expenses st)
    ∧ (Forall (λ e, inherited (Expense.category e) = false) (expenses st) →
       Forall (λ e, whole (Expense.amount e)) (expenses st) →
       magnitude (Expense.amount <$> expenses st) < 2 ^ 53 →
       sum_of_totals rows = Some g)
    ∧ (∀ c, expenses st ≠ [] → inherited c = false →
            Forall (λ e, Expense.category e = c
                         ∧ plain (Expense.amount e) = true) (expenses st) →
            rows = [Row.mk c (PNum g)]).
Proof.
  exists (summaryArray (expenses st)), (grandTotal (expenses st)).
  split; [done|]. split; [apply grandTotal_sum|].
  split; [by intros ->|]. split_and!.
  - intros Hinh. rewrite summary_rows, row_categories by done. split_and!.
    + by apply summary_keys_NoDup.
    + apply Forall_fmap, Forall_forall. by intros c _.
    + unfold amounts_of. rewrite <- fmap_bind_list. f_equiv.
      apply group_by_category_perm; [by apply summary_keys_NoDup|].
      intros e He. apply summary_keys_elem_of; [done|].
      by apply list_elem_of_fmap_2.
  - apply whole_totals_add_up.
  - intros c Hne Hc Hl.
    assert (Forall (λ e, inherited (Expense.category e) = false) (expenses st))
      as Hinh by (eapply Forall_impl; [exact Hl|]; intros e [He _]; by rewrite He).
    assert (Forall (λ e, plain (Expense.amount e) = true) (expenses st))
      as Hplain by (eapply Forall_impl; [exact Hl|]; by intros e [_ ?]).
    assert (Expense.category <$> expenses st
            = replicate (length (expenses st)) c) as Hcats.
    { clear -Hl. induction Hl as [|e l [He _] _ IH]; [done|].
      csimpl. by rewrite IH, He. }
    assert (amounts_of c (expenses st) = Expense.amount <$> expenses st) as Hall.
    { unfold amounts_of. f_equal. clear -Hl.
      induction Hl as [|e l [He _] _ IH]; [done|].
      rewrite filter_cons_True by done. by rewrite IH. }
    rewrite (summary_rows_sum _ Hinh Hplain), Hcats.
    destruct (expenses st) as [|e l]; [done|]. simpl length.
    assert (first_seen (replicate (S (length l)) c) = [c]) as ->.
    { simpl. f_equal.
      assert (Forall (λ x, x = c) (first_seen (replicate (length l) c))) as Hc'.
      { apply Forall_forall. by intros x [-> _]%elem_of_first_seen%elem_of_replicate. }
      induction Hc' as [|x xs -> _ IH]; [done|].
      by rewrite filter_cons_False by tauto. }
    assert (property_order [c] = [c]) as ->.
    { unfold property_order. rewrite !filter_cons, !filter_nil.
      by destruct (is_index c); repeat case_decide. }
    simpl. by rewrite Hall, grandTotal_sum.
Qed.

Lemma summary_totals_regroup_the_amounts_witness :
  let l := expenses Sample.mixed in
  Forall (λ e, inherited (Expense.category e) = false) l
  ∧ Forall (λ e, whole (Expense.amount e)) l
  ∧ magnitude (Expense.amount <$> l) < 2 ^ 53
  ∧ ∃ rows g,
      get_summary Sample.mixed = Ok 200 (rows, g)
      ∧ g = float_sum (Expense.amount <$> l)
      ∧ NoDup (Row.category <$> rows)
      ∧ (Row.category <$> rows) ≫= (λ c, amounts_of c l) ≡ₚ Expense.amount <$> l
      ∧ sum_of_totals rows = Some g.
Proof.
  assert (Forall (λ e, inherited (Expense.category e) = false)
            (expenses Sample.mixed)) as Hinh by (by repeat constructor).
  assert (Forall (λ e, whole (Expense.amount e)) (expenses Sample.mixed))
    as Hwhole by (repeat constructor; by vm_compute).
  assert (magnitude (Expense.amount <$> expenses Sample.mixed) < 2 ^ 53)
    as Hmag by (by vm_compute).
  split_and!; [exact Hinh | exact Hwhole | exact Hmag |].
  destruct (summary_totals_regroup_the_amounts Sample.mixed)
    as (rows & g & Hsum & Hg & _ & Hre & Hexact & _).
  destruct (Hre Hinh) as (Hnd & _ & Hperm).
  exists rows, g. split_and!; auto.
Defined.

(** C1, as stated, fails: with amounts 0.3 and 0.2 under one category and
    0.1 under another, the per-category totals add up to 0.6 while the grand
    total is 0.6000000000000001. *)
Lemma category_totals_miss_the_grand_total :
  ∃ rows g,
    get_summary Sample.groceries = Ok 200 (rows, g)
    ∧ rows = [ Row.mk "Food" (PNum (numeral "0.5"));
               Row.mk "Transport" (PNum (numeral "0.1")) ]
    ∧ sum_of_totals rows = Some (numeral "0.6")
    ∧ g = numeral "0.6000000000000001"
    ∧ strict_eq (numeral "0.6") g = false
    ∧ sum_of_totals rows ≠ Some g.
Proof. do 2 eexists. by vm_compute. Qed.

(** ** The scenarios of the specification *)

Example scenario_empty_store :
  get_summary initial = Ok 200 ([], zero).
Proof. reflexivity. Qed.

Example scenario_two_food_expenses :
  get_summary Sample.food_only
  = Ok 200 ([Row.mk "Food" (PNum (numeral "80"))], numeral "80").
Proof. by vm_compute. Qed.

Example scenario_recategorised_expense :
  let st := Sample.created [ Sample.create "20" "Food" "2024-01-01";
                             Sample.create "30" "Transport" "2024-01-02" ] in
  let st' := handle (PutExpense "id-1"
                       (Body.mk JUndefined (TStr "Transport") TAbsent TAbsent)) st in
  get_summary st'
  = Ok 200 ([Row.mk "Transport" (PNum (numeral "50"))], numeral "50").
Proof. by vm_compute. Qed.

Example scenario_create_without_category :
  post_expense "id-1"
    (Body.mk (JNum (numeral "50")) (TStr "") (TStr "2024-01-01") TAbsent) initial
  = (ValidationError_expense, initial).
Proof. reflexivity. Qed.

(** Two behaviours that the hypotheses of the summary theorems set aside. An
    expense filed under [__proto__] has no row, and a category that names a
    method of [Object.prototype] gets a text for a total. *)
Example summary_with_prototype_members :
  summaryArray
    [ Expense.mk "id-1" (numeral "5") "__proto__" "2024-01-01" (TStr "");
      Expense.mk "id-2" (numeral "7") "toString" "2024-01-02" (TStr "");
      Expense.mk "id-3" (numeral "1") "Food" "2024-01-03" (TStr "") ]
  = [ Row.mk "toString" (PText "toString" [numeral "7"]);
      Row.mk "Food" (PNum (numeral "1")) ].
Proof. by vm_compute. Qed.

(** A running total that is [NaN] is dropped before the next amount. *)
Example summary_restarts_after_nan :
  get_summary
    {| expenses :=
         [ Expense.mk "id-1" nan "Food" "2024-01-01" (TStr "");
           Expense.mk "id-2" (numeral "5") "Food" "2024-01-02" (TStr "") ];
       categories := [] |}
  = Ok 200 ([Row.mk "Food" (PNum (numeral "5"))], nan).
Proof. by vm_compute. Qed.

(** * Further properties of the code *)

Import Vocabulary Helpers SummaryData.

(** ** Sample states *)

Lemma food_only_reachable : reachable Sample.food_only.
Proof.
  apply (reachable_step _ (PostExpense "id-2" _)).
  - apply (reachable_step _ (PostExpense "id-1" _)).
    + apply reachable_initial.
    + apply not_elem_of_nil.
  - apply (bool_decide_unpack _). by vm_compute.
Defined.

Lemma with_travel_reachable : reachable Scenario.with_travel.
Proof. apply reachable_step; [apply reachable_initial | exact I]. Defined.

(** ** Looking an expense up by its identifier *)

Lemma findIndex_Some (id : string) (l : list expense) (i : nat) (e : expense) :
  findIndex id l = Some (i, e) →
  l !! i = Some e ∧ Expense.id e = id
  ∧ ∀ j e', l !! j = Some e' → (j < i)%nat → Expense.id e' ≠ id.
Proof. unfold findIndex. by intros ?%list_find_Some. Qed.

Lemma findIndex_lookup (l : list expense) (i : nat) (e : expense) :
  NoDup (ids l) → l !! i = Some e → findIndex (Expense.id e) l = Some (i, e).
Proof.
  intros Hnd Hi. unfold findIndex. apply list_find_Some.
  split; [done|]. split; [done|].
  intros j e' Hj Hlt Heq.
  assert (j = i); [|lia].
  eapply NoDup_lookup; [exact Hnd| |].
  - unfold ids. rewrite list_lookup_fmap, Hj. reflexivity.
  - unfold ids. rewrite list_lookup_fmap, Hi. simpl. by rewrite Heq.
Qed.

(** X1. In every state the server can be in, the identifier of a stored
    expense leads back to that expense and to no other: the search of the
    update and delete handlers finds it at its own position, a deletion by
    its identifier returns it, and an update by its identifier writes over
    it. *)
Theorem stored_expense_is_found_by_its_id (st : state) (i : nat) (e : expense) :
  reachable st → expenses st !! i = Some e →
  findIndex (Expense.id e) (expenses st) = Some (i, e)
  ∧ (delete_expense (Expense.id e) st).1
    = Ok 200 (e, "Expense deleted successfully")
  ∧ ∀ b, (put_expense (Expense.id e) b st).1
         = Ok 200 (updated e b, "Expense updated successfully").
Proof.
  intros Hst Hi.
  pose proof (findIndex_lookup _ _ _ (reachable_ids_distinct st Hst) Hi) as Hf.
  split; [done|]. unfold delete_expense, put_expense. by rewrite Hf.
Qed.

Lemma stored_expense_is_found_by_its_id_witness :
  let e := Expense.mk "id-2" (numeral "30") "Food" "2024-01-02" (TStr "") in
  expenses Sample.food_only !! 1%nat = Some e
  ∧ findIndex "id-2" (expenses Sample.food_only) = Some (1%nat, e)
  ∧ (delete_expense "id-2" Sample.food_only).1
    = Ok 200 (e, "Expense deleted successfully").
Proof.
  assert (expenses Sample.food_only !! 1%nat
          = Some (Expense.mk "id-2" (numeral "30") "Food" "2024-01-02" (TStr "")))
    as Hi by (by vm_compute).
  split; [exact Hi|].
  destruct (stored_expense_is_found_by_its_id _ _ _ food_only_reachable Hi)
    as (Hf & Hd & _).
  split; [exact Hf | exact Hd].
Defined.

(** ** Creating, then deleting *)

Lemma findIndex_app_new (l : list expense) (e : expense) :
  Expense.id e ∉ ids l → findIndex (Expense.id e) (l ++ [e]) = Some (length l, e).
Proof.
  intros Hnew. unfold findIndex. apply list_find_Some. split.
  - by rewrite lookup_app_r, Nat.sub_diag by lia.
  - split; [done|]. intros j e' Hj Hlt Heq. apply Hnew.
    rewrite lookup_app_l in Hj by done.
    apply list_elem_of_fmap. exists e'. split; [done|].
    by eapply list_elem_of_lookup_2.
Qed.

Lemma delete_app_last {A} (l : list A) (x : A) : delete (length l) (l ++ [x]) = l.
Proof. induction l as [|y l IH]; simpl; [done|]. by rewrite IH. Qed.

(** X2. Creating an expense under an identifier that no stored expense
    carries, and then deleting by that identifier, returns the created
    record and leaves the two arrays exactly as they were before the
    creation. *)
Theorem create_then_delete_round_trip (uuid : string) (b : body) (st : state) :
  uuid ∉ ids (expenses st) → ¬ rejected b →
  ∃ e st', post_expense uuid b st = (Ok 201 (e, "Expense added successfully"), st')
           ∧ Expense.id e = uuid
           ∧ delete_expense uuid st'
             = (Ok 200 (e, "Expense deleted successfully"), st).
Proof.
  intros Hnew Hb.
  assert (post_expense uuid b st ≠ (ValidationError_expense, st)) as Hp.
  { intros Hp. by apply Hb, (post_expense_rejects uuid b st). }
  unfold post_expense in *.
  destruct (negb (truthy_val (Body.amount b)) || _ || _); [done|].
  eexists _, _. split; [done|]. split; [done|].
  unfold delete_expense. cbn [expenses categories].
  set (e := Expense.mk _ _ _ _ _).
  pose proof (findIndex_app_new (expenses st) e Hnew) as Hf.
  change (Expense.id e) with uuid in Hf. rewrite Hf, delete_app_last.
  by destruct st.
Qed.

Lemma create_then_delete_round_trip_witness :
  let b := Sample.create "12.5" "Transport" "2024-01-05" in
  ("id-3" ∉ ids (expenses Sample.food_only))
  ∧ ∃ e st', post_expense "id-3" b Sample.food_only
             = (Ok 201 (e, "Expense added successfully"), st')
             ∧ delete_expense "id-3" st'
               = (Ok 200 (e, "Expense deleted successfully"), Sample.food_only).
Proof.
  assert ("id-3" ∉ ids (expenses Sample.food_only)) as Hnew
    by (apply (bool_decide_unpack _); by vm_compute).
  assert (¬ rejected (Sample.create "12.5" "Transport" "2024-01-05")) as Hb.
  { intros H. apply (post_expense_rejects "id-3" _ initial) in H. discriminate H. }
  split; [exact Hnew|].
  destruct (create_then_delete_round_trip "id-3" _ _ Hnew Hb)
    as (e & st' & Hp & _ & Hd).
  exists e, st'. split; [exact Hp | exact Hd].
Defined.

(** ** Updating twice *)

Lemma updated_idemp (old : expense) (b : body) :
  updated (updated old b) b = updated old b.
Proof.
  unfold updated, or_else. simpl.
  destruct (Body.amount b), (truthy_text (Body.category b)),
    (truthy_text (Body.date b)), (Body.description b); reflexivity.
Qed.

Lemma findIndex_insert (id : string) (l : list expense) (i : nat) (e new : expense) :
  findIndex id l = Some (i, e) → Expense.id new = id →
  findIndex id (<[i:=new]> l) = Some (i, new).
Proof.
  intros (Hi & He & Hlt)%findIndex_Some Hnew. unfold findIndex.
  apply list_find_Some. split.
  - apply list_lookup_insert_eq. by eapply lookup_lt_Some.
  - split; [done|]. intros j e' Hj Hji.
    rewrite list_lookup_insert_ne in Hj by lia. by eapply Hlt.
Qed.

(** X3. Updating is idempotent: sending the same update of the same
    identifier a second time gives the same response as the first time and
    leaves the arrays as the first update left them, whether or not the
    identifier is known. *)
Theorem update_is_idempotent (id : string) (b : body) (st : state) :
  put_expense id b (put_expense id b st).2 = put_expense id b st.
Proof.
  unfold put_expense.
  destruct (findIndex id (expenses st)) as [[i old]|] eqn:Hf; simpl.
  - pose proof Hf as (_ & Hid & _)%findIndex_Some.
    rewrite (findIndex_insert id (expenses st) i old (updated old b) Hf Hid).
    by rewrite updated_idemp, list_insert_insert_eq.
  - by rewrite Hf.
Qed.

(** ** Listing after a deletion *)

Lemma filter_all {A} (P : A → Prop) `{!∀ x, Decision (P x)} (l : list A) :
  Forall P l → filter P l = l.
Proof.
  induction 1 as [|x l Hx _ IH]; [done|]. by rewrite filter_cons_True, IH.
Qed.

Lemma filter_none {A} (P : A → Prop) `{!∀ x, Decision (P x)} (l : list A) :
  Forall (λ x, ¬ P x) l → filter P l = [].
Proof.
  induction 1 as [|x l Hx _ IH]; [done|]. by rewrite filter_cons_False.
Qed.




(** ** Invariants of the store *)





(** ** Where identifiers come from *)

Lemma put_expense_ids (id : string) (b : body) (st : state) :
  ids (expenses (put_expense id b st).2) = ids (expenses st).
Proof.
  unfold put_expense.
  destruct (findIndex id (expenses st)) as [[i old]|] eqn:Hf; [|done].
  apply findIndex_Some in Hf as (Hi & _). simpl. unfold ids.
  rewrite list_fmap_insert, list_insert_id; [done|].
  by rewrite list_lookup_fmap, Hi.
Qed.

Lemma handle_ids (r : request) (st : state) :
  ids (expenses (handle r st)) `sublist_of` ids (expenses st)
  ∨ (∃ uuid b, r = PostExpense uuid b
               ∧ ids (expenses (handle r st)) = ids (expenses st) ++ [uuid]).
Proof.
  destruct r as [uuid b|id b|id|name]; simpl.
  - unfold post_expense. destruct (_ || _); [by left|].
    right. exists uuid, b. split; [done|]. unfold ids. simpl.
    by rewrite fmap_app.
  - left. by rewrite put_expense_ids.
  - left. unfold delete_expense.
    destruct (findIndex id (expenses st)) as [[i old]|]; [|done]. simpl.
    unfold ids. apply fmap_sublist, sublist_delete.
  - left. unfold post_category. by repeat case_match.
Qed.

(** X24. The identifiers of the stored expenses only change by a creation
    and a deletion: an update keeps the identifiers and their order, a
    deletion removes one, a creation appends the one [uuidv4] returned, and
    a request on the registry touches none. So, as long as [uuidv4] returns
    an identifier that is not stored, the identifiers are pairwise distinct
    in every state the server can be in. *)
Theorem identifiers_come_from_creations (st : state) (r : request) :
  reachable st →
  NoDup (ids (expenses st))
  ∧ (ids (expenses (handle r st)) `sublist_of` ids (expenses st)
     ∨ (∃ uuid b, r = PostExpense uuid b
                  ∧ ids (expenses (handle r st)) = ids (expenses st) ++ [uuid]))
  ∧ (∀ id b, ids (expenses (handle (PutExpense id b) st)) = ids (expenses st))
  ∧ (admissible r st → NoDup (ids (expenses (handle r st)))).
Proof.
  intros Hst. split; [by apply reachable_ids_distinct|].
  split; [apply handle_ids|]. split.
  - intros id b. apply put_expense_ids.
  - intros Hr. apply reachable_ids_distinct. by apply reachable_step.
Qed.

Lemma identifiers_come_from_creations_witness :
  NoDup (ids (expenses Sample.food_only))
  ∧ ids (expenses (handle (DeleteExpense "id-1") Sample.food_only)) = ["id-2"]
  ∧ ids (expenses (handle (PutExpense "id-1"
                             (Body.mk (JStr "7") (TStr "Rent") TAbsent TAbsent))
                          Sample.food_only))
    = ids (expenses Sample.food_only).
Proof.
  destruct (identifiers_come_from_creations Sample.food_only
              (DeleteExpense "id-1") food_only_reachable) as (Hnd & _ & Hput & _).
  split; [exact Hnd|]. split; [by vm_compute|]. apply Hput.
Defined.

(** ** Invariants of the registry *)

Lemma existsb_lower_false (x : string) (cs : list string) :
  existsb (λ c, String.eqb (toLowerCase c) (toLowerCase x)) cs = false →
  toLowerCase x ∉ toLowerCase <$> cs.
Proof.
  intros H [c [Hc Hin]]%list_elem_of_fmap.
  assert (existsb (λ c, String.eqb (toLowerCase c) (toLowerCase x)) cs = true)
    as Ht; [|congruence].
  apply existsb_exists. exists c. split.
  - by apply list_elem_of_In.
  - apply String.eqb_eq. done.
Qed.

Lemma post_category_categories (name : text) (st : state) :
  categories (post_category name st).2 = categories st
  ∨ (∃ s, name = TStr s ∧ trim s ≠ ""
          ∧ (toLowerCase (trim s) ∉ toLowerCase <$> categories st)
          ∧ categories (post_category name st).2 = categories st ++ [trim s]).
Proof.
  unfold post_category.
  destruct (negb (truthy_text name) || negb (nonempty (trim (string_of name))))
    eqn:Hv; [by left|].
  apply orb_false_elim in Hv as [Ht Hn].
  apply negb_false_iff in Ht, Hn.
  destruct (existsb _ _) eqn:Hex; [by left|].
  right. exists (string_of name). split; [by rewrite truthy_text_string|].
  split; [by apply nonempty_true|].
  split; [by apply existsb_lower_false|done].
Qed.

(** A request leaves the registry as it is, or appends one trimmed name
    that is new up to case. *)
Lemma handle_categories (r : request) (st : state) :
  categories (handle r st) = categories st
  ∨ (∃ s, r = PostCategory (TStr s) ∧ trim s ≠ ""
          ∧ (toLowerCase (trim s) ∉ toLowerCase <$> categories st)
          ∧ categories (handle r st) = categories st ++ [trim s]).
Proof.
  destruct r as [uuid b|id b|id|name]; simpl.
  - left. unfold post_expense. by destruct (_ || _).
  - left. unfold put_expense. by destruct (findIndex _ _) as [[??]|].
  - left. unfold delete_expense. by destruct (findIndex _ _) as [[??]|].
  - destruct (post_category_categories name st) as [?|(s & -> & ?)]; [by left|].
    right. by exists s.
Qed.

(** X6. In every state the server can be in, the registered categories are
    pairwise distinct up to case: no two of them have the same lower-case
    form. *)
Theorem registry_distinct_up_to_case (st : state) :
  reachable st → NoDup (toLowerCase <$> categories st).
Proof.
  induction 1 as [|st r _ IH _].
  - apply (bool_decide_unpack _). by vm_compute.
  - destruct (handle_categories r st) as [->|(s & _ & _ & Hnew & ->)]; [done|].
    rewrite fmap_app. apply NoDup_app. split; [done|]. split.
    + intros x Hx ->%list_elem_of_singleton. done.
    + apply NoDup_singleton.
Qed.

Lemma registry_distinct_up_to_case_witness :
  NoDup (toLowerCase <$> categories Scenario.with_travel)
  ∧ toLowerCase <$> categories Scenario.with_travel
    = [ "food"; "transport"; "entertainment"; "utilities"; "healthcare";
        "shopping"; "travel" ].
Proof.
  split; [|by vm_compute].
  apply registry_distinct_up_to_case. exact with_travel_reachable.
Defined.

(** *** Trimming *)

Lemma trimStart_head (s : string) :
  match trimStart s with
  | EmptyString => True
  | String c _ => is_whitespace c = false
  end.
Proof.
  induction s as [|c s IH]; simpl; [done|].
  destruct (is_whitespace c) eqn:Hc; [done|]. done.
Qed.

Lemma trimEnd_head (c : ascii) (s : string) :
  is_whitespace c = false → ∃ t, trimEnd (String c s) = String c t.
Proof.
  intros Hc. simpl. destruct (trimEnd s); rewrite ?Hc; eauto.
Qed.

Lemma trimEnd_idemp (s : string) : trimEnd (trimEnd s) = trimEnd s.
Proof.
  induction s as [|c s IH]; simpl; [done|].
  destruct (trimEnd s) as [|d t] eqn:Ht.
  - destruct (is_whitespace c) eqn:Hc; simpl; [done|]. by rewrite Hc.
  - change (trimEnd (String c (String d t))) with
      (match trimEnd (String d t) with
       | EmptyString => if is_whitespace c then EmptyString else String c EmptyString
       | t' => String c t'
       end).
    by rewrite IH.
Qed.

(** Trimming a trimmed string changes nothing. *)
Lemma trim_idemp (s : string) : trim (trim s) = trim s.
Proof.
  unfold trim. pose proof (trimStart_head s) as Hh.
  destruct (trimStart s) as [|c u]; [done|].
  destruct (trimEnd_head c u Hh) as [t Ht]. rewrite Ht.
  cbn [trimStart]. rewrite Hh, <- Ht. apply trimEnd_idemp.
Qed.

Lemma trimEnd_last (s : string) (a : ascii) :
  last (chars (trimEnd s)) = Some a → is_whitespace a = false.
Proof.
  induction s as [|c s IH]; simpl; [done|].
  destruct (trimEnd s) as [|d t] eqn:Ht.
  - destruct (is_whitespace c) eqn:Hc; simpl; [done|]. by intros [= <-].
  - exact IH.
Qed.

Lemma trim_head (s : string) (a : ascii) :
  head (chars (trim s)) = Some a → is_whitespace a = false.
Proof.
  unfold trim. pose proof (trimStart_head s) as Hh.
  destruct (trimStart s) as [|c u]; [done|].
  destruct (trimEnd_head c u Hh) as [t ->]. simpl. by intros [= <-].
Qed.

(** X7. In every state the server can be in, every registered category is
    a non-empty string that trimming leaves unchanged: it neither starts
    nor ends with white space. *)
Theorem registry_names_are_trimmed (st : state) :
  reachable st →
  Forall (λ c, c ≠ "" ∧ trim c = c
               ∧ ∀ a, head (chars c) = Some a ∨ last (chars c) = Some a →
                      is_whitespace a = false) (categories st).
Proof.
  induction 1 as [|st r _ IH _].
  - repeat (constructor; [split; [done|split; [done|]];
      by intros a [[= <-]|[= <-]]|]). constructor.
  - destruct (handle_categories r st) as [->|(s & _ & Hne & _ & ->)]; [done|].
    apply Forall_app. split; [done|]. apply Forall_singleton.
    split; [done|]. split; [apply trim_idemp|].
    intros a [Ha|Ha]; [by eapply trim_head|by eapply trimEnd_last].
Qed.

Lemma registry_names_are_trimmed_witness :
  Forall (λ c, c ≠ "" ∧ trim c = c
               ∧ ∀ a, head (chars c) = Some a ∨ last (chars c) = Some a →
                      is_whitespace a = false)
         (categories Scenario.with_travel)
  ∧ last (categories Scenario.with_travel) = Some "Travel".
Proof.
  split; [|by vm_compute].
  apply registry_names_are_trimmed. exact with_travel_reachable.
Defined.

Lemma seed_is_a_prefix (st : state) :
  reachable st → ∃ added, categories st = categories initial ++ added.
Proof.
  induction 1 as [|st r _ [added IH] _].
  - exists []. by rewrite app_nil_r.
  - destruct (handle_categories r st) as [->|(s & _ & _ & _ & ->)].
    + by exists added.
    + exists (added ++ [trim s]). by rewrite IH, app_assoc.
Qed.

(** X8. No request removes or reorders a registered category: a request
    leaves the registry as it is or appends to it. So in every state the
    server can be in, the list of categories starts with the six seeds, in
    their order. *)
Theorem categories_are_never_removed (st : state) (r : request) :
  reachable st →
  (∃ added, get_categories st = Ok 200 (categories initial ++ added))
  ∧ (∃ more, categories (handle r st) = categories st ++ more).
Proof.
  intros Hst. split.
  - destruct (seed_is_a_prefix st Hst) as [added Hadded].
    exists added. unfold get_categories. by rewrite Hadded.
  - destruct (handle_categories r st) as [->|(s & _ & _ & _ & ->)].
    + exists []. by rewrite app_nil_r.
    + by exists [trim s].
Qed.

Lemma categories_are_never_removed_witness :
  (∃ added, get_categories Scenario.with_travel
            = Ok 200 (categories initial ++ added))
  ∧ (∃ more, categories (handle (PostCategory (TStr "Rent")) Scenario.with_travel)
             = categories Scenario.with_travel ++ more).
Proof.
  exact (categories_are_never_removed Scenario.with_travel
           (PostCategory (TStr "Rent")) with_travel_reachable).
Defined.

(** ** The keys of the summary *)

Lemma insert_key_perm (ks : list string) (i : Z) (k : string) :
  insert_key ks i k ≡ₚ k :: ks.
Proof.
  induction ks as [|k' ks IH]; simpl; [done|].
  destruct (array_index k'); [|done].
  destruct (i <? z); [done|]. rewrite IH. apply Permutation_swap.
Qed.

Lemma key_step_cases (ks : list string) (k : string) :
  key_step ks k = ks ∧ (k ∈ ks ∨ k = "__proto__")
  ∨ key_step ks k ≡ₚ k :: ks ∧ (k ∉ ks) ∧ k ≠ "__proto__".
Proof.
  unfold key_step. destruct (decide (k ∈ ks)) as [Hin|Hin]; [by left; auto|].
  destruct (String.eqb_spec k "__proto__") as [->|Hne]; [by left; auto|].
  right. split; [|done].
  destruct (array_index k).
  - apply insert_key_perm.
  - by rewrite <- Permutation_cons_append.
Qed.

Lemma fold_key_step (cats ks : list string) :
  NoDup ks → "__proto__" ∉ ks →
  NoDup (fold_left key_step cats ks)
  ∧ ∀ c, c ∈ fold_left key_step cats ks ↔ c ∈ ks ∨ (c ∈ cats ∧ c ≠ "__proto__").
Proof.
  revert ks. induction cats as [|k cats IH]; intros ks Hnd Hp; simpl.
  - split; [done|]. intros c. rewrite elem_of_nil. tauto.
  - destruct (key_step_cases ks k) as [[-> Hk]|(Hperm & Hk & Hne)].
    + destruct (IH ks Hnd Hp) as [IH1 IH2]. split; [done|].
      intros c. rewrite IH2, elem_of_cons. split; [tauto|].
      intros [?|[[->|?] ?]]; [tauto| |tauto].
      destruct Hk as [?|?]; [tauto|done].
    + destruct (IH (key_step ks k)) as [IH1 IH2].
      * rewrite Hperm. by apply NoDup_cons.
      * rewrite Hperm, elem_of_cons. intros [?|?]; done.
      * split; [done|]. intros c. rewrite IH2, Hperm, !elem_of_cons. split.
        -- intros [[->|?]|[? ?]]; tauto.
        -- intros [?|[[->|?] ?]]; tauto.
Qed.

Lemma summaryArray_categories (l : list expense) :
  Row.category <$> summaryArray l = (summary_object l).*1.
Proof.
  unfold summaryArray. rewrite <- list_fmap_compose.
  apply list_fmap_ext. by intros _ [??] _.
Qed.

Lemma summary_object_NoDup (l : list expense) : NoDup (summary_object l).*1.
Proof.
  unfold summary_object. rewrite keys_fold.
  by apply (fold_key_step (Expense.category <$> l) []
              (NoDup_nil_2) (not_elem_of_nil _)).
Qed.

(** X9. For every collection of expenses, whatever their categories and
    amounts, the summary has exactly one row for each category string that
    some expense carries, except that the category [__proto__] never gets a
    row; so it has at most as many rows as there are expenses. *)
Theorem summary_has_one_row_for_each_category (l : list expense) :
  NoDup (Row.category <$> summaryArray l)
  ∧ (∀ c, c ∈ Row.category <$> summaryArray l
          ↔ c ∈ Expense.category <$> l ∧ c ≠ "__proto__")
  ∧ (length (summaryArray l) ≤ length l)%nat.
Proof.
  pose proof (fold_key_step (Expense.category <$> l) []
                (NoDup_nil_2) (not_elem_of_nil _)) as [Hnd Hin].
  assert (Row.category <$> summaryArray l
          = fold_left key_step (Expense.category <$> l) []) as Hkeys.
  { rewrite summaryArray_categories. unfold summary_object. by rewrite keys_fold. }
  rewrite Hkeys. split; [done|]. split.
  - intros c. rewrite Hin, elem_of_nil. tauto.
  - rewrite <- (length_fmap Row.category), <- (length_fmap Expense.category l).
    rewrite Hkeys. apply submseteq_length, NoDup_submseteq; [done|].
    intros c. rewrite Hin, elem_of_nil. tauto.
Qed.

(** ** A category that names a member of [Object.prototype] *)

Lemma get_own_summary_step_member (acc : object) (e : expense) (c : string) :
  inherited c = true → c ≠ "__proto__" →
  get_own (summary_step acc e) c
  = if decide (Expense.category e = c)
    then Some (step_value (Some (default (PText c []) (get_own acc c)))
                          (Expense.amount e))
    else get_own acc c.
Proof.
  intros Hc Hp. rewrite summary_step_value.
  destruct (decide (Expense.category e = c)) as [->|Hne].
  - rewrite get_own_set by done. rewrite decide_True by done.
    unfold get. rewrite Hc. by destruct (get_own acc c).
  - by rewrite get_own_set_ne.
Qed.

Lemma get_own_fold_member (l : list expense) (acc : object) (c : string) :
  inherited c = true → c ≠ "__proto__" →
  get_own (fold_left summary_step l acc) c
  = fold_left (λ read a, Some (step_value (Some (default (PText c []) read)) a))
      (amounts_of c l) (get_own acc c).
Proof.
  intros Hc Hp. revert acc. induction l as [|e l IH]; intros acc; [done|].
  simpl. rewrite IH, get_own_summary_step_member, amounts_of_cons by done.
  by destruct (decide (Expense.category e = c)).
Qed.

Lemma fold_step_value_text (c : string) (amounts seen : list number) :
  fold_left (λ read a, Some (step_value (Some (default (PText c []) read)) a))
    amounts (Some (PText c seen))
  = Some (PText c (seen ++ amounts)).
Proof.
  revert seen. induction amounts as [|a amounts IH]; intros seen; simpl.
  - by rewrite app_nil_r.
  - by rewrite IH, <- app_assoc.
Qed.

Lemma sum_of_totals_from_text (rows : list row) (acc : number) (r : row) m l :
  r ∈ rows → Row.total r = PText m l → sum_of_totals_from acc rows = None.
Proof.
  intros Hin Hr. revert acc.
  induction rows as [|r' rows IH]; intros acc; [by apply elem_of_nil in Hin|].
  simpl. apply elem_of_cons in Hin as [<-|Hin].
  - by rewrite Hr.
  - destruct (Row.total r'); [by apply IH|done].
Qed.

(** X10. When some expense is filed under a category that names a member
    of [Object.prototype] other than [__proto__] (such as [constructor] or
    [toString]), the row of that category holds no Number: its total is a
    text, the inherited member followed by the amounts of the category in
    stored order. The totals of the summary then do not add up to a
    Number. *)
Theorem prototype_member_category_gets_a_text_total (l : list expense) (c : string) :
  inherited c = true → c ≠ "__proto__" → c ∈ Expense.category <$> l →
  Row.mk c (PText c (amounts_of c l)) ∈ summaryArray l
  ∧ amounts_of c l ≠ []
  ∧ sum_of_totals (summaryArray l) = None.
Proof.
  intros Hc Hp Hin.
  assert (amounts_of c l ≠ []) as Hne.
  { apply list_elem_of_fmap in Hin as (e & -> & He). unfold amounts_of.
    intros Hnil%fmap_nil_inv.
    eapply (filter_nil_not_elem_of _ _ e); [exact Hnil|done|done]. }
  assert (Row.mk c (PText c (amounts_of c l)) ∈ summaryArray l) as Hrow.
  { unfold summaryArray. apply list_elem_of_fmap.
    exists (c, PText c (amounts_of c l)). split; [done|].
    apply get_own_Some. unfold summary_object.
    rewrite get_own_fold_member by done. cbn [get_own].
    destruct (amounts_of c l) as [|a amounts]; [done|]. cbn [fold_left].
    change (Some (step_value (Some (default (PText c []) None)) a))
      with (Some (PText c [a])).
    by rewrite fold_step_value_text. }
  split; [done|]. split; [done|].
  by eapply sum_of_totals_from_text.
Qed.

Lemma prototype_member_category_gets_a_text_total_witness :
  let l := [ Expense.mk "id-1" (numeral "7") "constructor" "2024-01-02" (TStr "");
             Expense.mk "id-2" (numeral "1") "Food" "2024-01-03" (TStr "");
             Expense.mk "id-3" (numeral "2") "constructor" "2024-01-04" (TStr "") ] in
  inherited "constructor" = true
  ∧ Row.mk "constructor" (PText "constructor" [numeral "7"; numeral "2"])
    ∈ summaryArray l
  ∧ sum_of_totals (summaryArray l) = None.
Proof.
  split; [reflexivity|].
  destruct (prototype_member_category_gets_a_text_total
    [ Expense.mk "id-1" (numeral "7") "constructor" "2024-01-02" (TStr "");
      Expense.mk "id-2" (numeral "1") "Food" "2024-01-03" (TStr "");
      Expense.mk "id-3" (numeral "2") "constructor" "2024-01-04" (TStr "") ]
    "constructor" eq_refl) as (Hrow & _ & Hsum).
  - discriminate.
  - apply list_elem_of_here.
  - split; [exact Hrow | exact Hsum].
Defined.

(** ** What the summary reads *)

Lemma summary_step_entry (acc : object) (e e' : expense) :
  entry e = entry e' → summary_step acc e = summary_step acc e'.
Proof. unfold entry, summary_step. by intros [= -> ->]. Qed.

(** Two collections with the same categories and amounts, in the same
    order, have the same summary. *)
Lemma get_summary_entries (st st' : state) :
  entry <$> expenses st = entry <$> expenses st' → get_summary st = get_summary st'.
Proof.
  unfold get_summary, summaryArray, summary_object, grandTotal.
  generalize (@nil (string * propval)) zero.
  generalize (expenses st') as l'.
  induction (expenses st) as [|e l IH]; intros [|e' l'] acc g Heq; try done.
  injection Heq as Hc Ha Hl. simpl.
  rewrite (summary_step_entry acc e e') by (unfold entry; by rewrite Hc, Ha).
  rewrite Ha. by apply IH.
Qed.

(** X11. An update that supplies no amount and no category, or an empty
    one, leaves the whole summary response as it was, rows and grand total,
    whatever it does to the date and the description and whether or not the
    identifier is known. *)
Theorem summary_ignores_dates_and_descriptions
  (id : string) (c d ds : text) (st : state) :
  truthy_text c = false →
  get_summary (put_expense id (Body.mk JUndefined c d ds) st).2 = get_summary st.
Proof.
  intros Hc. apply get_summary_entries. unfold put_expense.
  destruct (findIndex id (expenses st)) as [[i old]|] eqn:Hf; [|done].
  apply findIndex_Some in Hf as (Hi & _). cbn [snd expenses].
  rewrite list_fmap_insert.
  apply list_insert_id. rewrite list_lookup_fmap, Hi. simpl. f_equal.
  unfold entry, updated, or_else. simpl. by rewrite Hc.
Qed.

Lemma summary_ignores_dates_and_descriptions_witness :
  let b := Body.mk JUndefined (TStr "") (TStr "2024-02-01") (TStr "dinner") in
  get_summary (put_expense "id-1" b Sample.food_only).2
  = get_summary Sample.food_only
  ∧ Expense.date <$> expenses (put_expense "id-1" b Sample.food_only).2
    = ["2024-02-01"; "2024-01-02"].
Proof.
  split; [|by vm_compute].
  exact (summary_ignores_dates_and_descriptions "id-1" (TStr "")
           (TStr "2024-02-01") (TStr "dinner") Sample.food_only eq_refl).
Defined.

(** ** The summary after a creation *)

Lemma elem_of_summaryArray (l : list expense) (c : string) (v : propval) :
  Row.mk c v ∈ summaryArray l ↔ get_own (summary_object l) c = Some v.
Proof.
  unfold summaryArray. rewrite list_elem_of_fmap. split.
  - intros ([c' v'] & [= -> ->] & Hin).
    apply get_own_elem_of; [apply summary_object_NoDup|done].
  - intros Hg. exists (c, v). split; [done|]. by apply get_own_Some.
Qed.

Lemma summary_object_snoc (l : list expense) (e : expense) :
  summary_object (l ++ [e]) = summary_step (summary_object l) e.
Proof. unfold summary_object. by rewrite fold_left_app. Qed.

(** X12. A successful creation under a category that names no member of
    [Object.prototype] changes the summary in two places only. The grand
    total becomes the old grand total plus the parsed amount, in floating
    point. The row of the new expense's category holds its old total plus
    the amount (the old total counted as 0 when it is 0 or [NaN]), or the
    amount added to 0 when the category had no row. The row of every other
    category is as it was. *)
Theorem create_adds_to_one_total (uuid : string) (b : body) (st : state) :
  ¬ rejected b → inherited (string_of (Body.category b)) = false →
  let st' := (post_expense uuid b st).2 in
  let c0 := string_of (Body.category b) in
  let a := parseFloat (Body.amount b) in
  grandTotal (expenses st') = add (grandTotal (expenses st)) a
  ∧ (∀ c v, c ≠ c0 →
       Row.mk c v ∈ summaryArray (expenses st')
       ↔ Row.mk c v ∈ summaryArray (expenses st))
  ∧ (∀ t, Row.mk c0 (PNum t) ∈ summaryArray (expenses st) →
          Row.mk c0 (PNum (add (if truthy t then t else zero) a))
          ∈ summaryArray (expenses st'))
  ∧ (c0 ∉ Row.category <$> summaryArray (expenses st) →
     Row.mk c0 (PNum (add zero a)) ∈ summaryArray (expenses st')).
Proof.
  intros Hb Hc0.
  assert (post_expense uuid b st ≠ (ValidationError_expense, st)) as Hp.
  { intros Hp. by apply Hb, (post_expense_rejects uuid b st). }
  unfold post_expense in *.
  destruct (negb (truthy_val (Body.amount b)) || _ || _); [done|].
  cbn [snd expenses]. set (e := Expense.mk _ _ _ _ _).
  cbn zeta. split; [|split; [|split]].
  - unfold grandTotal. by rewrite fold_left_app.
  - intros c v Hne. rewrite !elem_of_summaryArray, summary_object_snoc.
    rewrite summary_step_value. by rewrite get_own_set_ne.
  - intros t. rewrite !elem_of_summaryArray, summary_object_snoc.
    intros Ht. rewrite get_own_summary_step by done.
    rewrite decide_True by done. by rewrite Ht.
  - rewrite summaryArray_categories, elem_of_summaryArray, summary_object_snoc.
    intros Hnew%get_own_None. rewrite get_own_summary_step by done.
    rewrite decide_True by done. by rewrite Hnew.
Qed.

Lemma create_adds_to_one_total_witness :
  let b := Sample.create "20" "Food" "2024-01-05" in
  let st' := (post_expense "id-3" b Sample.food_only).2 in
  inherited "Food" = false
  ∧ grandTotal (expenses st')
    = add (grandTotal (expenses Sample.food_only)) (numeral "20")
  ∧ Row.mk "Food" (PNum (numeral "100")) ∈ summaryArray (expenses st').
Proof.
  assert (¬ rejected (Sample.create "20" "Food" "2024-01-05")) as Hb.
  { intros H. apply (post_expense_rejects "id-3" _ initial) in H. discriminate H. }
  split; [reflexivity|].
  destruct (create_adds_to_one_total "id-3" _ Sample.food_only Hb eq_refl)
    as (Hg & _ & Hrow & _).
  split; [exact Hg|].
  apply (Hrow (numeral "80")). by vm_compute; apply list_elem_of_here.
Defined.

(** ** The form *)

Lemma gt_zero_cases (x : number) :
  gt x zero = true →
  (∃ m e, x = S754_finite false m e) ∨ x = infinity.
Proof.
  destruct x as [[]|[]| |[] m e]; try done; eauto.
Qed.

(** X13. [isValidAmount] accepts a value exactly when [parseFloat] reads a
    Number above zero from it, a finite one or [Infinity]; its test for
    [NaN] decides nothing, since [NaN] is not above zero. *)
Theorem valid_amount_is_positive (v : jsval) :
  isValidAmount v = gt (parseFloat v) zero
  ∧ (isValidAmount v = true
     ↔ positive_finite (parseFloat v) = true ∨ parseFloat v = infinity).
Proof.
  unfold isValidAmount, positive_finite. generalize (parseFloat v) as x.
  intros x. split.
  - destruct x as [[]|[]| |[] m e]; done.
  - destruct x as [[]|[]| |[] m e]; split; try done; try (by intros [?|?]);
      auto.
Qed.

(** The amount of a valid form, as the server reads it. *)
Lemma valid_amount_json (x : number) :
  gt x zero = true →
  positive_finite x = true ∧ jsval_of (number_json x) = JNum x
  ∧ truthy x = true ∧ parseFloat (JNum x) = x
  ∨ x = infinity ∧ jsval_of (number_json x) = JNull.
Proof.
  intros [(m & e & ->)| ->]%gt_zero_cases; [left|right]; done.
Qed.

Section FormProperties.

Variable isValidDate : string → bool.

Lemma handleSubmit_Some (f : ExpenseForm.formData) (d : ExpenseForm.expenseData) :
  ExpenseForm.handleSubmit isValidDate f = Some d →
  truthy_val (FormData.amount f) = true
  ∧ isValidAmount (FormData.amount f) = true
  ∧ truthy_text (FormData.category f) = true
  ∧ truthy_text (FormData.date f) = true
  ∧ isValidDate (string_of (FormData.date f)) = true
  ∧ d = {| ExpenseData.amount := parseFloat (FormData.amount f);
           ExpenseData.category := FormData.category f;
           ExpenseData.date := FormData.date f;
           ExpenseData.description := FormData.description f |}.
Proof.
  unfold ExpenseForm.handleSubmit, ExpenseForm.validateForm. cbn [snd].
  destruct (truthy_val (FormData.amount f)),
    (isValidAmount (FormData.amount f)),
    (truthy_text (FormData.category f)),
    (truthy_text (FormData.date f)),
    (isValidDate (string_of (FormData.date f))); simpl; try done.
  by intros [= <-].
Qed.

(** X14. What the form submits for a new expense, the server either stores
    or turns down, and what it stores is what the form held: the amount
    [parseFloat] read from the amount field, a finite Number above zero,
    with the category and the date of the form, the date being one that
    [isValidDate] accepts. The server turns the submission down, with the
    validation error, only when the amount field parses to [Infinity],
    which reaches the server as [null]. *)
Theorem form_creates_positive_amounts
  (f : ExpenseForm.formData) (d : ExpenseForm.expenseData)
  (uuid : string) (st : state) :
  ExpenseForm.handleSubmit isValidDate f = Some d →
  (∃ e, App.handleSubmit None d uuid st
        = (Ok 201 (e, "Expense added successfully"),
           {| expenses := expenses st ++ [e]; categories := categories st |})
        ∧ Expense.id e = uuid
        ∧ Expense.amount e = parseFloat (FormData.amount f)
        ∧ positive_finite (Expense.amount e) = true
        ∧ TStr (Expense.category e) = FormData.category f
        ∧ TStr (Expense.date e) = FormData.date f
        ∧ isValidDate (Expense.date e) = true)
  ∨ (parseFloat (FormData.amount f) = infinity
     ∧ App.handleSubmit None d uuid st = (ValidationError_expense, st)).
Proof.
  intros (_ & Ha & Hc & Hd & Hv & ->)%handleSubmit_Some.
  unfold isValidAmount in Ha. apply andb_true_iff in Ha as [_ Ha].
  unfold App.handleSubmit, ExpenseService.body_json, post_expense.
  cbn [ExpenseData.amount ExpenseData.category ExpenseData.date
       ExpenseData.description Body.amount Body.category Body.date
       Body.description].
  rewrite Hc, Hd.
  destruct (valid_amount_json _ Ha) as [(Hp & -> & Ht & Hx)|[Hinf ->]].
  - left. cbn [truthy_val]. rewrite Ht. cbn [negb orb].
    eexists. split; [done|]. cbn [Expense.id Expense.amount Expense.category
                                 Expense.date].
    rewrite Hx, !truthy_text_string by done. done.
  - right. done.
Qed.

(** X15. What the form submits for an expense being edited, the server
    writes over the record with that identifier: the category and the date
    of the form, its description unless the form has none, and for the
    amount the finite Number above zero that [parseFloat] read from the
    amount field. When the amount field parses to [Infinity], which reaches
    the server as [null], the stored amount becomes [NaN]. *)
Theorem form_updates_keep_amounts_positive
  (f : ExpenseForm.formData) (d : ExpenseForm.expenseData)
  (id uuid : string) (st : state) :
  ExpenseForm.handleSubmit isValidDate f = Some d → known id st →
  ∃ i old new,
    App.handleSubmit (Some id) d uuid st
    = (Ok 200 (new, "Expense updated successfully"),
       {| expenses := <[i:=new]> (expenses st); categories := categories st |})
    ∧ expenses st !! i = Some old
    ∧ Expense.id new = id
    ∧ TStr (Expense.category new) = FormData.category f
    ∧ TStr (Expense.date new) = FormData.date f
    ∧ (FormData.description f ≠ TAbsent →
       Expense.description new = FormData.description f)
    ∧ (positive_finite (Expense.amount new) = true
       ∧ Expense.amount new = parseFloat (FormData.amount f)
       ∨ parseFloat (FormData.amount f) = infinity ∧ Expense.amount new = nan).
Proof.
  intros (_ & Ha & Hc & Hd & Hv & ->)%handleSubmit_Some Hid.
  unfold isValidAmount in Ha. apply andb_true_iff in Ha as [_ Ha].
  destruct (findIndex_known id st Hid) as (i & old & Hf & Hi & Hold).
  unfold App.handleSubmit, put_expense. rewrite Hf.
  exists i, old. eexists. split; [done|]. split; [done|].
  unfold ExpenseService.body_json, updated, or_else.
  cbn [ExpenseData.amount ExpenseData.category ExpenseData.date
       ExpenseData.description Body.amount Body.category Body.date
       Body.description Expense.id Expense.amount Expense.category
       Expense.date Expense.description].
  rewrite Hc, Hd, !truthy_text_string by done.
  split; [done|]. split; [done|]. split; [done|]. split.
  - by destruct (FormData.description f).
  - destruct (valid_amount_json _ Ha) as [(Hp & -> & Ht & Hx)|[Hinf ->]].
    + left. by rewrite Hx.
    + right. done.
Qed.

End FormProperties.

Lemma form_creates_positive_amounts_witness :
  ExpenseForm.handleSubmit Scenario.any_date Scenario.lunch
  = Some (ExpenseData.mk (numeral "12.5") (TStr "Food") (TStr "2024-01-01")
                         (TStr "lunch"))
  ∧ ∃ e, App.handleSubmit None
           (ExpenseData.mk (numeral "12.5") (TStr "Food") (TStr "2024-01-01")
                           (TStr "lunch")) "id-1" initial
         = (Ok 201 (e, "Expense added successfully"),
            {| expenses := [e]; categories := categories initial |})
         ∧ Expense.amount e = numeral "12.5"
         ∧ positive_finite (Expense.amount e) = true.
Proof.
  assert (ExpenseForm.handleSubmit Scenario.any_date Scenario.lunch
          = Some (ExpenseData.mk (numeral "12.5") (TStr "Food") (TStr "2024-01-01")
                                 (TStr "lunch"))) as Hs by (by vm_compute).
  split; [exact Hs|].
  destruct (form_creates_positive_amounts Scenario.any_date _ _ "id-1" initial Hs)
    as [(e & He & _ & Ha & Hp & _)|[Hinf _]].
  - exists e. split; [exact He|]. split; [|exact Hp].
    rewrite Ha. by vm_compute.
  - exfalso. revert Hinf. by vm_compute.
Defined.

Lemma form_updates_keep_amounts_positive_witness :
  ExpenseForm.handleSubmit Scenario.any_date Scenario.lunch
  = Some (ExpenseData.mk (numeral "12.5") (TStr "Food") (TStr "2024-01-01")
                         (TStr "lunch"))
  ∧ known "id-2" Sample.food_only
  ∧ ∃ i old new,
      App.handleSubmit (Some "id-2")
        (ExpenseData.mk (numeral "12.5") (TStr "Food") (TStr "2024-01-01")
                        (TStr "lunch")) "" Sample.food_only
      = (Ok 200 (new, "Expense updated successfully"),
         {| expenses := <[i:=new]> (expenses Sample.food_only);
            categories := categories Sample.food_only |})
      ∧ expenses Sample.food_only !! i = Some old
      ∧ Expense.description new = TStr "lunch"
      ∧ Expense.amount new = numeral "12.5".
Proof.
  assert (ExpenseForm.handleSubmit Scenario.any_date Scenario.lunch
          = Some (ExpenseData.mk (numeral "12.5") (TStr "Food") (TStr "2024-01-01")
                                 (TStr "lunch"))) as Hs by (by vm_compute).
  assert (known "id-2" Sample.food_only) as Hk
    by (unfold known; apply (bool_decide_unpack _); by vm_compute).
  split; [exact Hs|]. split; [exact Hk|].
  destruct (form_updates_keep_amounts_positive Scenario.any_date _ _ "id-2" ""
              Sample.food_only Hs Hk)
    as (i & old & new & Hput & Hi & _ & _ & _ & Hdesc & Hamount).
  exists i, old, new. split; [exact Hput|]. split; [exact Hi|]. split.
  - by apply Hdesc.
  - destruct Hamount as [[_ ->]|[Hinf _]]; [by vm_compute|].
    exfalso. revert Hinf. by vm_compute.
Defined.

(** X16. The form never sends a blank category name. For an input that is
    empty or all white space it raises its own alert and sends nothing, so
    the server is unchanged. Any other input it sends trimmed; the server,
    which trims again, stores exactly the name that was sent, or answers
    that the category exists when a registered one equals it up to case.
    The server's own complaint about a missing name is never shown. *)
Theorem form_sends_trimmed_category_names
  (input : string) (cats : list string) (st : state) :
  (trim input = "" →
   ExpenseForm.handleAddCategory input cats st
   = ExpenseForm.mkAdded "Please enter a category name" cats None st)
  ∧ (trim input ≠ "" →
     (∃ c, c ∈ categories st ∧ toLowerCase c = toLowerCase (trim input)) →
     ExpenseForm.handleAddCategory input cats st
     = ExpenseForm.mkAdded "Category already exists" cats None st)
  ∧ (trim input ≠ "" →
     (∀ c, c ∈ categories st → toLowerCase c ≠ toLowerCase (trim input)) →
     ExpenseForm.handleAddCategory input cats st
     = ExpenseForm.mkAdded "Category added successfully!"
         (cats ++ [trim input]) (Some (trim input))
         {| expenses := expenses st;
            categories := categories st ++ [trim input] |})
  ∧ ExpenseForm.alert (ExpenseForm.handleAddCategory input cats st)
    ≠ "Category name is required".
Proof.
  unfold ExpenseForm.handleAddCategory.
  destruct (decide (trim input = "")) as [He|Hne].
  - rewrite He. simpl. repeat split; done.
  - replace (nonempty (trim input)) with true by (symmetry; by apply nonempty_true).
    cbn [negb]. rewrite post_category_validated by (by rewrite trim_idemp).
    rewrite trim_idemp.
    destruct (existsb _ _) eqn:Hex.
    + split; [done|]. split; [done|]. split; [|done].
      intros _ Hall. apply existsb_exists in Hex as (c & Hc & Heq).
      apply String.eqb_eq in Heq. apply list_elem_of_In in Hc. by destruct (Hall c).
    + split; [done|]. split; [|split; done].
      intros _ (c & Hc & Heq).
      assert (existsb (λ c, String.eqb (toLowerCase c) (toLowerCase (trim input)))
                (categories st) = true) as Ht; [|congruence].
      apply existsb_exists. exists c. split; [by apply list_elem_of_In|].
      by apply String.eqb_eq.
Qed.

(** X17. In every state the server can be in, the categories the form
    offers after loading are the registered categories without [Other], in
    the order of the registry: the response is never empty, so the
    categories the form starts with are always replaced, and the list
    starts with the six seeds. *)
Theorem form_offers_the_registered_categories (st : state) (cats : list string) :
  reachable st →
  ∃ data, get_categories st = Ok 200 data
    ∧ ExpenseForm.loadCategories data cats = filter (λ cat, cat ≠ "Other") data
    ∧ (∃ more, ExpenseForm.loadCategories data cats = categories initial ++ more)
    ∧ ("Other" ∉ ExpenseForm.loadCategories data cats)
    ∧ (∀ c, c ∈ data → c ≠ "Other" → c ∈ ExpenseForm.loadCategories data cats).
Proof.
  intros [added Hadded]%seed_is_a_prefix. exists (categories st).
  split; [done|].
  assert (ExpenseForm.loadCategories (categories st) cats
          = filter (λ cat, cat ≠ "Other") (categories st)) as ->.
  { by rewrite Hadded. }
  split; [done|]. split.
  - rewrite Hadded, filter_app. by eexists.
  - split.
    + intros [? _]%list_elem_of_filter. done.
    + intros c Hc Hne. by apply list_elem_of_filter.
Qed.

Lemma form_offers_the_registered_categories_witness :
  ∃ data, get_categories (handle (PostCategory (TStr "Other")) Scenario.with_travel)
          = Ok 200 data
    ∧ "Other" ∈ data
    ∧ ExpenseForm.loadCategories data []
      = [ "Food"; "Transport"; "Entertainment"; "Utilities"; "Healthcare";
          "Shopping"; "Travel" ].
Proof.
  destruct (form_offers_the_registered_categories
              (handle (PostCategory (TStr "Other")) Scenario.with_travel) [])
    as (data & Hdata & Hload & _).
  - apply reachable_step; [exact with_travel_reachable | exact I].
  - exists data. split; [exact Hdata|].
    assert (data = categories initial ++ ["Travel"; "Other"]) as ->.
    { unfold get_categories in Hdata. injection Hdata as <-. by vm_compute. }
    split; [|exact Hload || by vm_compute].
    apply (bool_decide_unpack _). by vm_compute.
Defined.

(** ** The filter buttons *)

Section Buttons.

Import CategoryFilter.

Lemma before_trans (a b c : string) : before a b → before b c → before a c.
Proof.
  unfold before, String.ltb. intros Hab Hbc.
  destruct (String.compare a b) eqn:H1; try done.
  destruct (String.compare b c) eqn:H2; try done.
  apply OrderedTypeEx.String_as_OT.cmp_lt in H1, H2.
  pose proof (OrderedTypeEx.String_as_OT.lt_trans _ _ _ H1 H2) as H3.
  apply OrderedTypeEx.String_as_OT.cmp_lt in H3.
  unfold OrderedTypeEx.String_as_OT.cmp in H3. by rewrite H3.
Qed.

Lemma leb_before (a b : string) : String.leb a b = true → a ≠ b → before a b.
Proof.
  unfold before, String.leb, String.ltb. intros Hle Hne.
  destruct (String.compare a b) eqn:Hc; try done.
  by apply String.compare_eq_iff in Hc.
Qed.

Lemma not_leb_before (a b : string) : String.leb a b = false → before b a.
Proof.
  unfold before, String.leb, String.ltb. rewrite (String.compare_antisym a b).
  by destruct (String.compare b a).
Qed.

Lemma insert_perm (c : string) (l : list string) : insert c l ≡ₚ c :: l.
Proof.
  induction l as [|x l IH]; simpl; [done|].
  destruct (String.leb c x); [done|]. rewrite IH. apply Permutation_swap.
Qed.

Lemma sort_perm (l : list string) : sort l ≡ₚ l.
Proof.
  induction l as [|x l IH]; simpl; [done|]. by rewrite insert_perm, IH.
Qed.

Lemma insert_ascending (c : string) (l : list string) :
  StronglySorted before l → c ∉ l → StronglySorted before (insert c l).
Proof.
  induction 1 as [|x l Hl IH Hx]; intros Hc; simpl.
  - repeat constructor.
  - apply not_elem_of_cons in Hc as [Hcx Hc].
    destruct (String.leb c x) eqn:Hle.
    + pose proof (leb_before c x Hle Hcx) as Hb.
      constructor; [by constructor|]. constructor; [done|].
      eapply Forall_impl; [exact Hx|]. intros y Hy. by eapply before_trans.
    + pose proof (not_leb_before c x Hle) as Hb.
      constructor; [by apply IH|]. rewrite insert_perm. by constructor.
Qed.

Lemma sort_ascending (l : list string) : NoDup l → StronglySorted before (sort l).
Proof.
  induction 1 as [|x l Hx _ IH]; simpl; [constructor|].
  apply insert_ascending; [done|]. by rewrite sort_perm.
Qed.

End Buttons.

(** X18. The filter offers no button when the listing it loaded is empty.
    Otherwise it offers [All] followed by the categories of the listed
    expenses, each exact category string once, in strictly ascending order
    of their code units: every button comes before all the later ones. *)
Theorem filter_buttons_are_the_sorted_categories (data : list expense) :
  (data = [] → CategoryFilter.allCategories (CategoryFilter.uniqueCategories data) = [])
  ∧ (data ≠ [] →
     ∃ cs, CategoryFilter.allCategories (CategoryFilter.uniqueCategories data)
           = "All" :: cs
           ∧ StronglySorted before cs
           ∧ NoDup cs
           ∧ ∀ c, c ∈ cs ↔ c ∈ Expense.category <$> data).
Proof.
  split; [by intros ->|]. intros Hne.
  exists (CategoryFilter.uniqueCategories data).
  assert (CategoryFilter.uniqueCategories data ≡ₚ first_seen (Expense.category <$> data))
    as Hperm by apply sort_perm.
  split.
  - destruct data as [|e data]; [done|].
    destruct (CategoryFilter.uniqueCategories (e :: data)) eqn:Hu; [|done].
    symmetry in Hperm. by apply Permutation_nil_r in Hperm.
  - split; [apply sort_ascending, NoDup_first_seen|].
    split; [rewrite Hperm; apply NoDup_first_seen|].
    intros c. by rewrite Hperm, elem_of_first_seen.
Qed.

Example filter_buttons_of_the_mixed_store :
  CategoryFilter.allCategories
    (CategoryFilter.uniqueCategories (expenses Sample.mixed))
  = ["All"; "2024"; "Food"; "food"].
Proof. by vm_compute. Qed.

(** ** The summary card *)

Lemma loadSummary_grandTotal (st : state) (t : App.totals) :
  App.grandTotal (App.loadSummary (get_summary st) t)
  = if positive_finite (grandTotal (expenses st))
    then grandTotal (expenses st)
    else if is_finite (grandTotal (expenses st)) && truthy (grandTotal (expenses st))
         then grandTotal (expenses st) else zero.
Proof.
  unfold get_summary, App.loadSummary. cbn [App.grandTotal].
  by destruct (grandTotal (expenses st)) as [[]|[]| |[] m e].
Qed.

Lemma elem_of_breakdown (data : list item) (g : number) (r : string * percentage) :
  r ∈ breakdown data g → ∃ it, it ∈ data ∧ r = (category it, percentage_of (total it) g).
Proof.
  unfold breakdown. intros (it & -> & Hit)%list_elem_of_fmap. eauto.
Qed.

(** X19. The summary card computes percentages only from a grand total of
    the server that is a finite Number above zero: then the page holds that
    grand total, and every percentage is a text [toFixed(1)] returned. For
    any other grand total of the server, zero, negative, [NaN] or infinite,
    every percentage shown is the Number 0; and a grand total that is [NaN]
    or infinite, which arrives as [null], is held by the page as 0. *)
Theorem breakdown_needs_a_positive_grand_total
  (st : state) (t : App.totals) (s : shown) :
  (positive_finite (grandTotal (expenses st)) = true →
   App.grandTotal (refresh st t s).1 = grandTotal (expenses st)
   ∧ ∀ r, r ∈ percentages (refresh st t s) → ∃ x, r.2 = PctText (toFixed1 x))
  ∧ (positive_finite (grandTotal (expenses st)) = false →
     ∀ r, r ∈ percentages (refresh st t s) → r.2 = PctZero)
  ∧ (is_finite (grandTotal (expenses st)) = false →
     App.grandTotal (refresh st t s).1 = zero).
Proof.
  unfold percentages, refresh. cbn [fst snd].
  rewrite loadSummary_grandTotal.
  destruct (grandTotal (expenses st)) as [[]|[]| |[] m e] eqn:Hg;
    (split; [|split]); try done.
  all: try (intros _ r (it & _ & ->)%elem_of_breakdown; done).
  intros _. split; [done|].
  intros r (it & _ & ->)%elem_of_breakdown. simpl. eauto.
Qed.

(** X20. When the store is empty, loading the summary changes nothing of
    what the summary card lists: the effect that prepares the data sets
    nothing for an empty summary, so the card keeps the rows and colours it
    showed before, now under a grand total of 0 and with the percentage 0
    on every row. *)
Theorem summary_card_keeps_the_last_rows
  (st : state) (t : App.totals) (s : shown) :
  expenses st = [] →
  App.summary (refresh st t s).1 = []
  ∧ App.grandTotal (refresh st t s).1 = zero
  ∧ (refresh st t s).2 = s
  ∧ percentages (refresh st t s) = (λ it, (category it, PctZero)) <$> displayData s.
Proof.
  intros He. unfold percentages, refresh, get_summary. rewrite He. done.
Qed.

Lemma summary_card_keeps_the_last_rows_witness :
  expenses (delete_expense "id-1"
              (post_expense "id-1" (Sample.create "80" "Food" "2024-01-01")
                            initial).2).2 = []
  ∧ percentages
      (refresh (delete_expense "id-1"
                  (post_expense "id-1" (Sample.create "80" "Food" "2024-01-01")
                                initial).2).2
               Scenario.no_totals Scenario.food_card)
    = [("Food", PctZero)].
Proof.
  assert (expenses (delete_expense "id-1"
            (post_expense "id-1" (Sample.create "80" "Food" "2024-01-01")
                          initial).2).2 = []) as He by (by vm_compute).
  split; [exact He|].
  destruct (summary_card_keeps_the_last_rows _ Scenario.no_totals
              Scenario.food_card He) as (_ & _ & _ & Hp).
  rewrite Hp. reflexivity.
Defined.

Lemma parse_total_json (v : propval) : parse_total (total_json v) = shown_total v.
Proof. by destruct v as [[[]|[]| |[] m e]|m l]. Qed.

Lemma prepare_summary_json (rows : list row) (s : shown) :
  rows ≠ [] →
  prepare (ExpenseService.summary_json rows) s
  = {| displayData := (λ r, mkItem (Row.category r) (shown_total (Row.total r)))
                      <$> rows;
       colors := (λ r, getCategoryColor (Row.category r)) <$> rows |}.
Proof.
  intros Hne.
  assert (prepare (ExpenseService.summary_json rows) s
          = let data :=
              (λ it, mkItem (SummaryItem.category it)
                            (parse_total (SummaryItem.total it)))
              <$> ExpenseService.summary_json rows in
            {| displayData := data;
               colors := (λ it, getCategoryColor (category it)) <$> data |}) as ->.
  { by destruct rows. }
  unfold ExpenseService.summary_json. cbn zeta.
  rewrite <- !list_fmap_compose. f_equal.
  apply list_fmap_ext. intros _ r _. simpl. by rewrite parse_total_json.
Qed.

(** X21. When the summary of the server has rows, the summary card lists
    them one for one, in the same order and each with the colour of its
    category. A total that is a finite Number arrives unchanged through the
    response and [parseFloat], save that [-0] arrives as [0]; a total that
    is [NaN] or infinite, or a text, is shown as [NaN]. *)
Theorem finite_totals_reach_the_summary_card
  (st : state) (t : App.totals) (s : shown) :
  summaryArray (expenses st) ≠ [] →
  displayData (refresh st t s).2
  = (λ r, mkItem (Row.category r) (shown_total (Row.total r)))
    <$> summaryArray (expenses st)
  ∧ colors (refresh st t s).2
    = (λ r, getCategoryColor (Row.category r)) <$> summaryArray (expenses st)
  ∧ (∀ r x, r ∈ summaryArray (expenses st) → Row.total r = PNum x →
            plain x = true →
            mkItem (Row.category r) x ∈ displayData (refresh st t s).2).
Proof.
  intros Hne. unfold refresh, get_summary.
  cbn [fst snd App.loadSummary App.summary].
  rewrite prepare_summary_json by done. cbn [displayData colors].
  split; [done|]. split; [done|].
  intros r x Hr Ht Hp. apply list_elem_of_fmap. exists r. split; [|done].
  rewrite Ht. by destruct x as [[]|[]| |[] m e].
Qed.

Lemma finite_totals_reach_the_summary_card_witness :
  summaryArray (expenses Sample.mixed) ≠ []
  ∧ displayData (refresh Sample.mixed Scenario.no_totals Scenario.food_card).2
    = [ mkItem "2024" (numeral "5"); mkItem "Food" (numeral "80");
        mkItem "food" (numeral "30") ]
  ∧ colors (refresh Sample.mixed Scenario.no_totals Scenario.food_card).2
    = [ Colour "#95A5A6"; Colour "#FF6B6B"; Colour "#95A5A6" ].
Proof.
  assert (summaryArray (expenses Sample.mixed) ≠ []) as Hne
    by (by vm_compute).
  split; [exact Hne|].
  destruct (finite_totals_reach_the_summary_card Sample.mixed Scenario.no_totals
              Scenario.food_card Hne) as (Hd & Hc & _).
  split; [rewrite Hd | rewrite Hc]; by vm_compute.
Defined.

(** ** One category *)

(** A finite Number divided by itself is 1. *)
Lemma div_self (s : bool) (m : positive) (e : Z) :
  div (S754_finite s m e) (S754_finite s m e) = of_Z 1.
Proof.
  unfold div, SFdiv, SFdiv_core_binary.
  rewrite !Z.sub_diag, xorb_nilpotent.
  change (Z.min (fexp prec emax 0) 0) with (-53).
  change (0 - -53) with 53.
  rewrite Z.shiftl_mul_pow2 by done.
  assert (Z.div_eucl (Z.pos m * 2 ^ 53) (Z.pos m) = (2 ^ 53, 0)) as ->.
  { pose proof (Z.div_mul (2 ^ 53) (Z.pos m) ltac:(done)) as Hq.
    pose proof (Z.mod_mul (2 ^ 53) (Z.pos m) ltac:(done)) as Hr.
    rewrite (Z.mul_comm (2 ^ 53)) in Hq, Hr.
    unfold Z.div, Z.modulo in Hq, Hr.
    destruct (Z.div_eucl _ _) as [q r]. by rewrite Hq, Hr. }
  assert (new_location (Z.pos m) 0 = loc_Exact) as ->.
  { unfold new_location. by destruct (Z.even _). }
  by vm_compute.
Qed.

Lemma single_category_rows (l : list expense) (c : string) :
  l ≠ [] → inherited c = false →
  Forall (λ e, Expense.category e = c ∧ plain (Expense.amount e) = true) l →
  summaryArray l = [Row.mk c (PNum (grandTotal l))].
Proof.
  intros Hne Hc Hl.
  assert (Forall (λ e, inherited (Expense.category e) = false) l) as Hinh
    by (eapply Forall_impl; [exact Hl|]; intros e [He _]; by rewrite He).
  assert (Forall (λ e, plain (Expense.amount e) = true) l) as Hplain
    by (eapply Forall_impl; [exact Hl|]; by intros e [_ ?]).
  assert (amounts_of c l = Expense.amount <$> l) as Hall.
  { unfold amounts_of. f_equal. apply filter_all.
    eapply Forall_impl; [exact Hl|]. by intros e [? _]. }
  assert (first_seen (Expense.category <$> l) = [c]) as Hseen.
  { destruct l as [|e l]; [done|]. apply Forall_cons in Hl as [[He _] Hl].
    csimpl. rewrite He. f_equal. apply filter_none, Forall_forall.
    intros x (e' & -> & He')%elem_of_first_seen%list_elem_of_fmap Hx.
    rewrite Forall_forall in Hl. by destruct (Hl e' He'). }
  assert (property_order [c] = [c]) as Horder.
  { unfold property_order. rewrite !filter_cons, !filter_nil.
    by destruct (is_index c); repeat case_decide. }
  rewrite (summary_rows_sum _ Hinh Hplain), Hseen, Horder. csimpl.
  by rewrite Hall, grandTotal_sum.
Qed.

Lemma percentage_of_self (m : positive) (e : Z) :
  percentage_of (S754_finite false m e) (S754_finite false m e)
  = PctText (FixedDigits false 1000).
Proof.
  unfold percentage_of, percentage_eval.
  change (gt (S754_finite false m e) zero) with true. cbn [fst].
  rewrite div_self. by vm_compute.
Qed.

(** X22. When every stored expense carries the same category, one that
    names no member of [Object.prototype], with amounts that are finite
    Numbers other than [-0], and the grand total is a finite Number above
    zero, the summary card shows one row, whose total is the grand total
    and whose percentage is exactly [100.0]. *)
Theorem single_category_takes_the_whole (st : state) (t : App.totals) (s : shown)
  (c : string) :
  expenses st ≠ [] → inherited c = false →
  Forall (λ e, Expense.category e = c ∧ plain (Expense.amount e) = true)
         (expenses st) →
  positive_finite (grandTotal (expenses st)) = true →
  displayData (refresh st t s).2 = [mkItem c (grandTotal (expenses st))]
  ∧ App.grandTotal (refresh st t s).1 = grandTotal (expenses st)
  ∧ percentages (refresh st t s) = [(c, PctText (FixedDigits false 1000))].
Proof.
  intros Hne Hc Hl Hg.
  pose proof (single_category_rows _ c Hne Hc Hl) as Hrows.
  assert (displayData (refresh st t s).2 = [mkItem c (grandTotal (expenses st))])
    as Hd.
  { unfold refresh, get_summary. cbn [fst snd App.loadSummary App.summary].
    rewrite prepare_summary_json by (by rewrite Hrows).
    rewrite Hrows. cbn [displayData]. csimpl. f_equal. f_equal.
    by destruct (grandTotal (expenses st)) as [[]|[]| |[] m e]. }
  assert (App.grandTotal (refresh st t s).1 = grandTotal (expenses st)) as Hg'.
  { unfold refresh. cbn [fst]. by rewrite loadSummary_grandTotal, Hg. }
  split; [done|]. split; [done|].
  unfold percentages. rewrite Hd, Hg'. unfold breakdown. csimpl.
  destruct (grandTotal (expenses st)) as [[]|[]| |[] m e]; try done.
  by rewrite percentage_of_self.
Qed.

Lemma single_category_takes_the_whole_witness :
  expenses Sample.food_only ≠ []
  ∧ Forall (λ e, Expense.category e = "Food" ∧ plain (Expense.amount e) = true)
           (expenses Sample.food_only)
  ∧ positive_finite (grandTotal (expenses Sample.food_only)) = true
  ∧ percentages (refresh Sample.food_only Scenario.no_totals Scenario.food_card)
    = [("Food", PctText (FixedDigits false 1000))].
Proof.
  assert (expenses Sample.food_only ≠ []) as Hne by (by vm_compute).
  assert (Forall (λ e, Expense.category e = "Food"
                       ∧ plain (Expense.amount e) = true)
            (expenses Sample.food_only)) as Hl
    by (repeat constructor).
  assert (positive_finite (grandTotal (expenses Sample.food_only)) = true)
    as Hg by (by vm_compute).
  split; [exact Hne|]. split; [exact Hl|]. split; [exact Hg|].
  exact (proj2 (proj2 (single_category_takes_the_whole Sample.food_only
                         Scenario.no_totals Scenario.food_card "Food"
                         Hne eq_refl Hl Hg))).
Defined.

(** ** The colours *)

(** X23. [getCategoryColor] gives a colour of its own to each of the six
    seed categories, matched by the exact string, and the fallback grey to
    every other category that names no member of [Object.prototype], among
    them [Other], the categories added later and the seeds in another case.
    For a category that names a member of [Object.prototype] it returns
    that member instead of a colour. *)
Theorem only_the_seed_categories_have_a_colour (c : string) :
  (c ∈ categories initial →
   ∃ hex, getCategoryColor c = Colour hex ∧ hex ≠ "#95A5A6")
  ∧ (c ∉ categories initial → inherited c = false →
     getCategoryColor c = Colour "#95A5A6")
  ∧ (inherited c = true → getCategoryColor c = Member c)
  ∧ (∀ c', c ∈ categories initial → c' ∈ categories initial →
           getCategoryColor c = getCategoryColor c' → c = c').
Proof.
  split; [|split; [|split]].
  - intros Hc. simpl in Hc.
    repeat (apply elem_of_cons in Hc as [->|Hc]; [by eexists|]).
    by apply elem_of_nil in Hc.
  - intros Hc Hi. unfold getCategoryColor, colorMap, own.
    repeat match goal with
           | |- context [String.eqb ?k c] =>
               destruct (String.eqb_spec k c) as [<-|?];
               [try done; exfalso; apply Hc; apply (bool_decide_unpack _);
                by vm_compute|]
           end.
    by rewrite Hi.
  - unfold inherited. intros Hc%bool_decide_eq_true.
    unfold prototype_members in Hc.
    repeat (apply elem_of_cons in Hc as [->|Hc]; [done|]).
    by apply elem_of_nil in Hc.
  - intros c' Hc Hc'. simpl in Hc, Hc'.
    repeat (apply elem_of_cons in Hc as [->|Hc];
            [repeat (apply elem_of_cons in Hc' as [->|Hc']; [done|]);
             by apply elem_of_nil in Hc'|]).
    by apply elem_of_nil in Hc.
Qed.
